(** * lie_groups: a shallow embedding of the numerical core

    The Python package [lie_groups] (modules [core], [geodesic], [weyl] and
    [cartan]) is embedded function by function.  Floating-point numbers are
    idealised as elements of a closed numeric field [C] (the real ones being
    the [Num.real] elements of [C]); NumPy values that are not finite (NaN,
    the infinities) are a separate case of [npfloat].  The LAPACK, NumPy, SciPy
    and scikit-learn routines the package calls ([la.eig], [la.svd],
    [np.angle], [pearsonr], ...) are parameters of the definitions that use
    them; what the theorems need of them is stated as a contract on the value
    the routine returns at the matrix at hand. *)

From HB Require Import structures.
From Stdlib Require Import String.
From mathcomp Require Import boot order algebra.
From mathcomp Require Import sesquilinear spectral algC ring_tactic.

Set Implicit Arguments.
Unset Strict Implicit.
Unset Printing Implicit Defensive.

Import Order.TTheory GRing.Theory Num.Theory Num.Def.

(** ** Python values that may raise *)

Module Py.

(** The exceptions the package can meet.  [ValueError] is raised by the
    package itself, [IndexError] by list and array indexing,
    [ZeroDivisionError] by [1/n]; [LibraryError] stands for an exception
    raised inside an external routine (LAPACK, SciPy, scikit-learn), kept
    apart from the package's own whatever its Python class. *)
Inductive exn : Type :=
  | IndexError
  | ZeroDivisionError
  | ValueError (msg : string)
  | LibraryError (msg : string).

Inductive result (A : Type) : Type :=
  | Ok (a : A)
  | Raise (e : exn).

Arguments Ok {A} a.
Arguments Raise {A} e.

Definition bind {A B} (r : result A) (k : A -> result B) : result B :=
  match r with
  | Ok a => k a
  | Raise e => Raise e
  end.

(** The outcome of an external routine: a value, or the message of the
    exception it raised. *)
Definition external {A} (r : A + string) : result A :=
  match r with
  | inl a => Ok a
  | inr msg => Raise (LibraryError msg)
  end.

(** The outcomes that are not a [ValueError]. *)
Definition no_value_error {A} (r : result A) : Prop :=
  forall msg, r <> Raise (ValueError msg).

(** [for x in xs: st = body st x], stopping at the first exception. *)
Fixpoint for_ {A S} (xs : seq A) (st : S) (body : S -> A -> result S)
  : result S :=
  match xs with
  | [::] => Ok st
  | x :: xs' => bind (body st x) (fun st' => for_ xs' st' body)
  end.

(** [range(a, b)] *)
Definition range (a b : nat) : seq nat := iota a (b - a).

(** [s[i]] for a non-negative index. *)
Fixpoint getitem {A} (s : seq A) (i : nat) : result A :=
  match s, i with
  | [::], _ => Raise IndexError
  | x :: _, 0 => Ok x
  | _ :: s', i'.+1 => getitem s' i'
  end.

(** [s[i] = x] for a non-negative index. *)
Fixpoint setitem {A} (s : seq A) (i : nat) (x : A) : result (seq A) :=
  match s, i with
  | [::], _ => Raise IndexError
  | _ :: s', 0 => Ok (x :: s')
  | y :: s', i'.+1 => bind (setitem s' i' x) (fun r => Ok (y :: r))
  end.

(** [D[i, j]] and [D[i, j] = x] on a two-dimensional array. *)
Definition getitem2 {A} (D : seq (seq A)) (i j : nat) : result A :=
  bind (getitem D i) (fun row => getitem row j).

Definition setitem2 {A} (D : seq (seq A)) (i j : nat) (x : A)
  : result (seq (seq A)) :=
  bind (getitem D i) (fun row =>
  bind (setitem row j x) (fun row' => setitem D i row')).

(** [d.get(key, default)] on a dictionary with string keys. *)
Fixpoint dict_get {A} (d : seq (string * A)) (key : string) (default : A) : A :=
  match d with
  | [::] => default
  | (k, v) :: d' => if String.eqb k key then v else dict_get d' key default
  end.

End Py.

Import Py.

Declare Scope py_scope.
Delimit Scope py_scope with py.
Notation "x <- r ;; k" := (Py.bind r (fun x => k))
  (at level 100, r at next level, right associativity) : py_scope.
Local Open Scope py_scope.

(** What a routine that dispatches on a Lie type can do: return a value,
    raise [NotImplementedError], or raise one of the exceptions of [Py]. *)
Inductive outcome (A : Type) : Type :=
  | Returned (a : A)
  | NotImplementedError (msg : string)
  | Raised (e : exn).

Arguments Returned {A} a.
Arguments NotImplementedError {A} msg.
Arguments Raised {A} e.

Definition of_result {A : Type} (r : result A) : outcome A :=
  match r with
  | Ok a => Returned a
  | Raise e => Raised e
  end.

Local Open Scope ring_scope.
Local Open Scope sesquilinear_scope.

(** ** NumPy floats

    A finite float is idealised as an element of the field; [NonFinite]
    stands for NaN and the two infinities.  An arithmetic operation with a
    non-finite operand has a non-finite result. *)

Inductive npfloat (C : Type) : Type :=
  | Finite (x : C)
  | NonFinite.

Arguments Finite {C} x.
Arguments NonFinite {C}.

Definition isfinite {C : Type} (x : npfloat C) : bool :=
  if x is Finite _ then true else false.

Definition np_lift2 {C : Type} (op : C -> C -> C) (a b : npfloat C)
  : npfloat C :=
  match a, b with
  | Finite x, Finite y => Finite (op x y)
  | _, _ => NonFinite
  end.

(** ** The external routines

    The LAPACK, NumPy, SciPy and scikit-learn routines the package calls.
    [rng] is the state of NumPy's global random generator. *)

Class Backend (C : numClosedFieldType) : Type := {
  rng : Type;
  (** [np.random.randn(n, m)] *)
  np_random_randn : forall n m : nat, rng -> 'M[C]_(n, m) * rng;
  (** [la.qr(Z)]: the factors [Q] and [R] *)
  la_qr : forall n : nat, 'M[C]_n -> 'M[C]_n * 'M[C]_n;
  (** [np.exp] and [np.angle], the latter with values in (-pi, pi] *)
  np_exp : C -> C;
  np_angle : C -> C;
  (** [z ** (1/n)], the principal [n]-th root *)
  np_root : nat -> C -> C;
  (** the natural logarithm of a positive real *)
  ln : C -> C;
  (** [la.eig(U)] and [la.eigh(U)]: the eigenvalues [w] and the matrix [V]
      whose columns are the eigenvectors *)
  la_eig : forall n : nat, 'M[C]_n -> 'rV[C]_n * 'M[C]_n;
  la_eigh : forall n : nat, 'M[C]_n -> 'rV[C]_n * 'M[C]_n;
  (** [la.svd(A)]: the factors [U], [S] and [Vh] *)
  la_svd : forall n : nat, 'M[C]_n -> 'M[C]_n * 'rV[C]_n * 'M[C]_n;
  (** [Isomap(n_neighbors, n_components, metric='precomputed').fit_transform(D)] *)
  isomap_fit_transform :
    nat -> nat -> seq (seq C) -> seq (seq C) + string;
  (** [MDS(n_components, dissimilarity='precomputed', random_state).fit_transform(D)] *)
  mds_fit_transform :
    nat -> nat -> seq (seq C) -> seq (seq C) + string;
  (** [PCA(n_components).fit_transform(X)] *)
  pca_fit_transform : nat -> seq (seq C) -> seq (seq C) + string;
  (** [scipy.stats.pearsonr(x, y)[0]] and [scipy.stats.spearmanr(x, y)[0]] *)
  pearsonr : seq C -> seq C -> npfloat C + string;
  spearmanr : seq C -> seq C -> npfloat C + string
}.

(** ** NumPy helpers that are plain arithmetic *)

Section Numpy.

Context {C : numClosedFieldType} {B : Backend C}.

(** [np.log] on a real array: the logarithm of a positive number, [-inf] at
    zero and NaN at a negative number. *)
Definition np_log (x : C) : npfloat C :=
  if 0 < x then Finite (ln x) else NonFinite.

(** [x / y] on floats: infinite or NaN when [y] is zero. *)
Definition np_true_divide (x y : C) : npfloat C :=
  if y == 0 then NonFinite else Finite (x / y).

(** [np.sqrt] on a real float: NaN at a negative number. *)
Definition np_sqrt (x : npfloat C) : npfloat C :=
  match x with
  | Finite x => if 0 <= x then Finite (sqrtC x) else NonFinite
  | NonFinite => NonFinite
  end.

Definition np_add : npfloat C -> npfloat C -> npfloat C := np_lift2 +%R.
Definition np_mul : npfloat C -> npfloat C -> npfloat C := np_lift2 *%R.

(** [A @ B] on arrays that may hold non-finite entries. *)
Definition np_matmul {m n p : nat} (A : 'M[npfloat C]_(m, n))
    (M : 'M[npfloat C]_(n, p)) : 'M[npfloat C]_(m, p) :=
  \matrix_(i, j) \big[np_add/Finite 0]_(k < n) np_mul (A i k) (M k j).

(** [np.diag(v)] *)
Definition np_diag {n : nat} (v : 'rV[npfloat C]_n) : 'M[npfloat C]_n :=
  \matrix_(i, j) if i == j then v 0 i else Finite 0.

(** A finite array seen as an array of floats. *)
Definition finite_mx {m n : nat} (A : 'M[C]_(m, n)) : 'M[npfloat C]_(m, n) :=
  map_mx Finite A.

(** [a.mean()], for a non-empty array. *)
Definition np_mean (a : seq C) : C := (\sum_(x <- a) x) / (size a)%:R.

(** [np.sort(a)], in ascending order; [np.sort(a)[::-1]] is its [rev]. *)
Definition np_sort (a : seq C) : seq C := sort <=%O a.

(** [np.diff(a)]: [a[i+1] - a[i]] *)
Definition np_diff (a : seq C) : seq C :=
  if a is x :: a' then pairmap (fun u v => v - u) x a' else [::].

(** [(x == x[0]).all()]: the test SciPy uses for a constant input. *)
Definition constant (x : seq C) : bool := all (fun a => a == head 0 x) x.

(** The sample correlation coefficient of [x] and [y], as
    [scipy.stats.pearsonr] computes it: the dot product of the centred and
    normalised vectors. *)
Definition pearson_coefficient (x y : seq C) : C :=
  let xm := [seq a - np_mean x | a <- x] in
  let ym := [seq b - np_mean y | b <- y] in
  (\sum_(p <- zip xm ym) p.1 * p.2)
  / (sqrtC (\sum_(a <- xm) a ^+ 2) * sqrtC (\sum_(b <- ym) b ^+ 2)).

(** [scipy.stats.rankdata(x)]: the average rank of each entry. *)
Definition rankdata (x : seq C) : seq C :=
  [seq (count (fun b => b < a) x)%:R + ((count (pred1 a) x)%:R + 1) / 2
  | a <- x].

(** The entries of a row vector, in order. *)
Definition tolist {n : nat} (v : 'rV[C]_n) : seq C := [seq v 0 i | i <- enum 'I_n].

(** [la.inv(V)] *)
Definition la_inv {n : nat} (V : 'M[C]_n) : result 'M[C]_n :=
  if V \in unitmx then Ok (invmx V) else Raise (LibraryError "Singular matrix").

(** [la.norm(L, 'fro')], which refuses non-finite entries. *)
Definition la_norm_fro {n : nat} (L : 'M[npfloat C]_n) : result C :=
  if [forall i, forall j, isfinite (L i j)] then
    Ok (sqrtC (\sum_i \sum_j `|if L i j is Finite x then x else 0| ^+ 2))
  else Raise (LibraryError "array must not contain infs or NaNs").

(** [x ** (1/n)] on a real float, for [n >= 1]: the exponent [1.0] leaves
    [x] as it is; a fractional exponent gives the non-negative root of a
    non-negative [x] and NaN at a negative [x]. *)
Definition np_float_root (n : nat) (x : C) : npfloat C :=
  if n == 1%N then Finite x
  else if 0 <= x then Finite (n.-root x) else NonFinite.

(** [x / r] for a float [r] that may be NaN. *)
Definition np_divide (x : C) (r : npfloat C) : npfloat C :=
  if r is Finite y then np_true_divide x y else NonFinite.

End Numpy.

(** ** What the theorems ask of the external routines *)

Section Contracts.

Context {C : numClosedFieldType} {B : Backend C}.

(** [la.eig] at [A]: the matrix of eigenvectors is invertible and its
    columns are eigenvectors for the eigenvalues returned, in order. *)
Definition eig_ok {n : nat} (A : 'M[C]_n) (wV : 'rV[C]_n * 'M[C]_n) : Prop :=
  wV.2 \in unitmx /\ A *m wV.2 = wV.2 *m diag_mx wV.1.

(** [la.eig] meets its contract at the unitary matrices, which are
    diagonalisable. *)
Definition la_eig_spec : Prop :=
  forall (n : nat) (A : 'M[C]_n), A \is unitarymx -> eig_ok A (la_eig A).

(** [la.eigh] at [A]: the matrix of eigenvectors is unitary and its columns
    are eigenvectors for the eigenvalues returned, in order. *)
Definition eigh_ok {n : nat} (A : 'M[C]_n) (wV : 'rV[C]_n * 'M[C]_n) : Prop :=
  wV.2 \is unitarymx /\ A *m wV.2 = wV.2 *m diag_mx wV.1.

(** [la.svd] at [A]: unitary factors and non-negative singular values whose
    product is [A]. *)
Definition svd_ok {n : nat} (A : 'M[C]_n)
    (USV : 'M[C]_n * 'rV[C]_n * 'M[C]_n) : Prop :=
  [/\ USV.1.1 \is unitarymx, USV.2 \is unitarymx,
      forall i, 0 <= USV.1.2 0 i
    & A = USV.1.1 *m diag_mx USV.1.2 *m USV.2].

(** [pearsonr] at [x] and [y]: a finite value is the sample correlation
    coefficient, NaN is returned only for a constant input, and an exception
    is raised only for inputs shorter than 2 or of different lengths. *)
Definition pearsonr_ok (x y : seq C) : Prop :=
  match pearsonr x y with
  | inl (Finite r) => r = pearson_coefficient x y
  | inl NonFinite => constant x || constant y
  | inr _ => (size x < 2)%N || (size x != size y)
  end.

(** [spearmanr] at [x] and [y]: a finite value is the sample correlation
    coefficient of two real vectors (the ranks), and an exception is raised
    only for inputs shorter than 2 or of different lengths. *)
Definition spearmanr_ok (x y : seq C) : Prop :=
  match spearmanr x y with
  | inl (Finite r) =>
      exists rx ry : seq C,
        [/\ all (fun a => a \is Num.real) rx,
            all (fun a => a \is Num.real) ry, size rx = size ry
          & r = pearson_coefficient rx ry]
  | inl NonFinite => True
  | inr _ => (size x < 2)%N || (size x != size y)
  end.

(** [np.angle] is real, vanishes at 1, and changes at most its sign under
    conjugation. *)
Definition np_angle_real : Prop := forall z : C, np_angle z \is Num.real.

Definition np_angle_spec : Prop :=
  [/\ np_angle_real, np_angle 1 = 0
    & forall z : C, `|np_angle z^*| = `|np_angle z|].

(** [la.qr] at [A]: a unitary factor and an upper triangular factor whose
    product is [A]. *)
Definition qr_ok {n : nat} (A : 'M[C]_n) (QR : 'M[C]_n * 'M[C]_n) : Prop :=
  [/\ QR.1 \is unitarymx,
      forall i j : 'I_n, (j < i)%N -> QR.2 i j = 0
    & A = QR.1 *m QR.2].

(** The first factor of [la.qr] is unitary. *)
Definition la_qr_unitary : Prop :=
  forall (n : nat) (Z : 'M[C]_n), (la_qr Z).1 \is unitarymx.

(** [np.exp] maps the imaginary axis to the unit circle. *)
Definition np_exp_spec : Prop :=
  forall t : C, t \is Num.real -> `|np_exp ('i * t)| = 1.

(** [z ** (1/n)] is an [n]-th root of [z]. *)
Definition np_root_spec : Prop :=
  forall (n : nat) (z : C), (0 < n)%N -> np_root n z ^+ n = z.

(** On the unit circle, [np.angle] vanishes at 1 only. *)
Definition np_angle_zero : Prop :=
  forall z : C, `|z| = 1 -> np_angle z = 0 -> z = 1.

(** [pearsonr] raises on inputs shorter than 2. *)
Definition pearsonr_short : Prop :=
  forall x y : seq C, (size x < 2)%N -> exists msg, pearsonr x y = inr msg.

End Contracts.

(** ** core.py *)

Module Core.
Section Core.

Context {C : numClosedFieldType} {B : Backend C}.

(** [random_su(n)], threading the state of the random generator.  For
    [n = 0] the call stops at [1/n] at the latest. *)
Definition random_su (n : nat) (s0 : rng) : result 'M[C]_n * rng :=
  let: (Zr, s1) := np_random_randn n n s0 in
  let: (Zi, s2) := np_random_randn n n s1 in
  let Z := Zr + 'i *: Zi in
  let: (Q, R) := la_qr Z in
  let D := diag_mx (\row_i np_exp (- 'i * np_angle (R i i))) in
  let U := Q *m D in
  if n is 0 then (Raise ZeroDivisionError, s2)
  else (Ok ((np_root n (\det U))^-1 *: U), s2).

(** [[random_su(n) for _ in range(k)]] *)
Fixpoint random_su_list (n k : nat) (s : rng)
  : result (seq 'M[C]_n) * rng :=
  if k is k'.+1 then
    let: (r, s1) := random_su n s in
    match r with
    | Ok U =>
        let: (rs, s2) := random_su_list n k' s1 in
        (Us <- rs ;; Ok (U :: Us), s2)
    | Raise e => (Raise e, s1)
    end
  else (Ok [::], s).

(** What [random_sun] returns: one matrix, or a list of matrices. *)
Inductive sun_samples (n : nat) : Type :=
  | Single (U : 'M[C]_n)
  | Batch (Us : seq 'M[C]_n).

Definition random_sun (n num_samples : nat) (s : rng)
  : result (sun_samples n) * rng :=
  if num_samples == 1%N then
    let: (r, s1) := random_su n s in (U <- r ;; Ok (Single U), s1)
  else
    let: (rs, s1) := random_su_list n num_samples s in
    (Us <- rs ;; Ok (Batch Us), s1).

(** The state of the generator after one call of [random_su(n)], and the
    outcome of the [i]-th of successive calls (counted from 0). *)
Definition random_su_state (n : nat) (s : rng) : rng := (random_su n s).2.

Definition nth_sample (n : nat) (s : rng) (i : nat) : result 'M[C]_n :=
  (random_su n (iter i (random_su_state n) s)).1.

Definition matrix_log {n : nat} (U : 'M[C]_n) (hermitian : bool)
  : result 'M[npfloat C]_n :=
  if hermitian then
    let: (w, V) := la_eigh U in
    Ok (np_matmul (np_matmul (finite_mx V) (np_diag (map_mx np_log w)))
                  (finite_mx (V ^t*)))
  else
    let: (w, V) := la_eig U in
    let ang := map_mx np_angle w in
    Vi <- la_inv V ;;
    Ok (finite_mx (V *m diag_mx ('i *: ang) *m Vi)).

Definition bi_invariant_distance {n : nat} (U V : 'M[C]_n) : result C :=
  let W := U ^t* *m V in
  L <- matrix_log W false ;;
  la_norm_fro L.

Definition polar_decomposition {n : nat} (A : 'M[C]_n)
  : 'M[C]_n * 'M[C]_n :=
  let: (U, S_, Vh) := la_svd A in
  let P := Vh ^t* *m diag_mx S_ *m Vh in
  let U := U *m Vh in
  (U, P).

(** The Euclidean norm of the angles of the entries of [sp]. *)
Definition angle_norm {n : nat} (sp : 'rV[C]_n) : C :=
  sqrtC (\sum_i `|np_angle (sp 0 i)| ^+ 2).

(** [random_sln_real(n)].  The determinant of a real array is a real float,
    and so is its power; the division is entry by entry. *)
Definition random_sln_real (n : nat) (s0 : rng)
  : result 'M[npfloat C]_n * rng :=
  let: (A, s1) := np_random_randn n n s0 in
  let d := \det A in
  if n is 0 then (Raise ZeroDivisionError, s1)
  else
    let r := np_float_root n d in
    (Ok (\matrix_(i, j) np_divide (A i j) r), s1).

End Core.
End Core.

(** ** geodesic.py *)

Module Geodesic.
Section Geodesic.

(** The group elements are [m] x [m] matrices; a distance matrix and an
    embedding are arrays of floats. *)
Context {C : numClosedFieldType} {B : Backend C} {m : nat}.

Definition np_zeros (n k : nat) : seq (seq C) := nseq n (nseq k 0).

(** The state of the loops of [compute_distance_matrix]: the array [D] and,
    as a ghost field, the index pairs at which [distance_func] has been
    called so far, in call order. *)
Record dm_state : Type := DmState {
  dm_D : seq (seq C);
  dm_calls : seq (nat * nat)
}.

(** The body of the inner loop: [d = distance_func(elements[i], elements[j])]
    and [D[i, j] = D[j, i] = d]. *)
Definition dm_body (elements : seq 'M[C]_m)
    (distance_func : 'M[C]_m -> 'M[C]_m -> result C)
    (i : nat) (st : dm_state) (j : nat) : result dm_state :=
  ei <- getitem elements i ;;
  ej <- getitem elements j ;;
  d <- distance_func ei ej ;;
  D1 <- setitem2 (dm_D st) i j d ;;
  D2 <- setitem2 D1 j i d ;;
  Ok (DmState D2 (rcons (dm_calls st) (i, j))).

Definition compute_distance_matrix_traced (elements : seq 'M[C]_m)
    (distance_func : option ('M[C]_m -> 'M[C]_m -> result C))
  : result dm_state :=
  let distance_func :=
    if distance_func is Some f then f else Core.bi_invariant_distance in
  let n := size elements in
  let D := np_zeros n n in
  for_ (range 0 n) (DmState D [::]) (fun st i =>
    for_ (range i.+1 n) st (dm_body elements distance_func i)).

Definition compute_distance_matrix (elements : seq 'M[C]_m)
    (distance_func : option ('M[C]_m -> 'M[C]_m -> result C))
  : result (seq (seq C)) :=
  st <- compute_distance_matrix_traced elements distance_func ;;
  Ok (dm_D st).

(** The pairs of the strict upper triangle, row by row. *)
Definition upper_pairs (n : nat) : seq (nat * nat) :=
  flatten [seq [seq (i, j) | j <- range i.+1 n] | i <- range 0 n].

(** Reading and writing a cell of a square array whose indices are in
    range, and the shape of such an array. *)
Definition ent (D : seq (seq C)) (i j : nat) : C := nth 0 (nth [::] D i) j.

Definition upd (D : seq (seq C)) (i j : nat) (x : C) : seq (seq C) :=
  set_nth [::] D i (set_nth 0 (nth [::] D i) j x).

Definition square (n : nat) (D : seq (seq C)) : bool :=
  (size D == n) && all (fun row => size row == n) D.

(** The invariant of the loops for a metric [f] that returns: after the
    calls [ps], [D] is square, holds [f] at the cells of [ps] and at their
    mirror images, and zero everywhere else. *)
Definition dm_inv (elements : seq 'M[C]_m) (f : 'M[C]_m -> 'M[C]_m -> C)
    (e0 : 'M[C]_m) (ps : seq (nat * nat)) (st : dm_state) : Prop :=
  let n := size elements in
  let e := nth e0 elements in
  [/\ square n (dm_D st),
      dm_calls st = ps,
      all (fun p => p.1 < p.2 < n)%N ps
    & forall a b, ent (dm_D st) a b =
        if (a, b) \in ps then f (e a) (e b)
        else if (b, a) \in ps then f (e b) (e a) else 0].

(** [isomap_embedding] returns the embedding, and the distance matrix when
    [return_distance_matrix] is set. *)
Definition isomap_embedding (elements : seq 'M[C]_m) (n_components : nat)
    (n_neighbors : nat)
    (distance_func : option ('M[C]_m -> 'M[C]_m -> result C))
    (return_distance_matrix : bool)
  : result (seq (seq C) * option (seq (seq C))) :=
  D <- compute_distance_matrix elements distance_func ;;
  embedding <- external (isomap_fit_transform n_neighbors n_components D) ;;
  if return_distance_matrix then Ok (embedding, Some D)
  else Ok (embedding, None).

(** [g.flatten()], row by row. *)
Definition flatten_mx (g : 'M[C]_m) : seq C :=
  flatten [seq [seq g i j | j <- enum 'I_m] | i <- enum 'I_m].

(** [np.iscomplexobj(X)].  The dtype of an array is not modelled: an array
    counts as complex when one of its entries is not real. *)
Definition np_iscomplexobj (X : seq (seq C)) : bool :=
  ~~ all (all (fun x : C => x \is Num.real)) X.

(** [np.hstack([X.real, X.imag])] *)
Definition hstack_real_imag (X : seq (seq C)) : seq (seq C) :=
  [seq [seq 'Re x | x <- row] ++ [seq 'Im x | x <- row] | row <- X].

Definition geodesic_embedding (elements : seq 'M[C]_m) (method : string)
    (n_components : nat)
    (distance_func : option ('M[C]_m -> 'M[C]_m -> result C))
    (kwargs : seq (string * nat)) : result (seq (seq C)) :=
  if String.eqb method "isomap" then
    let n_neighbors := dict_get kwargs "n_neighbors" 12%N in
    r <- isomap_embedding elements n_components n_neighbors distance_func
           false ;;
    Ok r.1
  else if String.eqb method "mds" then
    D <- compute_distance_matrix elements distance_func ;;
    external (mds_fit_transform n_components
                (dict_get kwargs "random_state" 42%N) D)
  else if String.eqb method "pca" then
    let X := [seq flatten_mx g | g <- elements] in
    let X := if np_iscomplexobj X then hstack_real_imag X else X in
    external (pca_fit_transform n_components X)
  else Raise (ValueError ("Unknown embedding method: " ++ method)).

(** A metric that returns: a function lifted to the metrics that may raise. *)
Definition returning (f : 'M[C]_m -> 'M[C]_m -> C)
  : 'M[C]_m -> 'M[C]_m -> result C :=
  fun U V => Ok (f U V).

(** The methods [geodesic_embedding] supports, and the exception it raises
    for any other. *)
Definition supported_method (method : string) : bool :=
  [|| String.eqb method "isomap", String.eqb method "mds"
    | String.eqb method "pca"].

Definition UnknownMethod (method : string) : exn :=
  ValueError ("Unknown embedding method: " ++ method).

End Geodesic.

Section Quality.

Context {C : numClosedFieldType} {B : Backend C}.

(** The dictionary [analyze_embedding_quality] returns. *)
Record quality : Type := Quality {
  pearson_correlation : npfloat C;
  spearman_correlation : npfloat C;
  normalized_stress : npfloat C;
  mean_distortion : npfloat C;
  max_distortion : C
}.

(** [squareform(pdist(embedding))]: the Euclidean distances between the rows. *)
Definition pdist_square {n d : nat} (embedding : 'M[C]_(n, d)) : 'M[C]_n :=
  \matrix_(i, j) sqrtC (\sum_k (embedding i k - embedding j k) ^+ 2).

(** [np.triu_indices_from(D, k=1)]: the cells above the diagonal, row by row. *)
Definition triu_indices (n : nat) : seq ('I_n * 'I_n) :=
  filter (fun p : 'I_n * 'I_n => (p.1 < p.2)%N)
         [seq (i, j) | i <- enum 'I_n, j <- enum 'I_n].

(** [np.mean] of an array of floats: NaN on an empty array. *)
Definition np_mean_float (a : seq C) : npfloat C :=
  np_true_divide (\sum_(x <- a) x) (size a)%:R.

(** [np.max], which raises on an empty array. *)
Definition np_max (a : seq C) : result C :=
  if a is x :: a' then Ok (foldl Num.max x a')
  else Raise (LibraryError "zero-size array to reduction operation").

Definition analyze_embedding_quality {n d : nat} (embedding : 'M[C]_(n, d))
    (distance_matrix : 'M[C]_n) : result quality :=
  let embed_dist := pdist_square embedding in
  let mask := triu_indices n in
  let orig_flat := [seq distance_matrix p.1 p.2 | p <- mask] in
  let embed_flat := [seq embed_dist p.1 p.2 | p <- mask] in
  pearson_r <- external (pearsonr orig_flat embed_flat) ;;
  spearman_r <- external (spearmanr orig_flat embed_flat) ;;
  let diff := [seq p.1 - p.2 | p <- zip orig_flat embed_flat] in
  let stress :=
    np_sqrt (np_true_divide (\sum_(x <- diff) x ^+ 2)
                            (\sum_(x <- orig_flat) x ^+ 2)) in
  let abs_diff := [seq `|x| | x <- diff] in
  max_d <- np_max abs_diff ;;
  Ok (Quality pearson_r spearman_r stress (np_mean_float abs_diff) max_d).

(** The supplied distances are the distances of the embedding. *)
Definition perfect_embedding {n d : nat} (embedding : 'M[C]_(n, d))
    (distance_matrix : 'M[C]_n) : Prop :=
  forall i j : 'I_n, (i < j)%N ->
    distance_matrix i j = pdist_square embedding i j.

(** What is claimed of every dictionary returned: each correlation that is
    finite lies in [-1, 1], the stress and the mean distortion are
    non-negative when finite, and so is the maximal distortion. *)
Definition quality_bounds (q : quality) : Prop :=
  [/\ forall r, pearson_correlation q = Finite r -> -1 <= r <= 1,
      forall r, spearman_correlation q = Finite r -> -1 <= r <= 1,
      forall s, normalized_stress q = Finite s -> 0 <= s,
      forall a, mean_distortion q = Finite a -> 0 <= a
    & 0 <= max_distortion q].

End Quality.
End Geodesic.

(** ** weyl.py *)

Module Weyl.
Section Weyl.

Context {C : numClosedFieldType} {B : Backend C}.

(** The lines the two routines share, from the eigenvalues on: the angles,
    centred at their mean and sorted in descending order. *)
Definition alcove_angles (w : seq C) : seq C :=
  let angles := [seq np_angle z | z <- w] in
  let mean := np_mean angles in
  let angles := [seq a - mean | a <- angles] in
  rev (np_sort angles).

Definition sorted_angles {n : nat} (U : 'M[C]_n) : seq C :=
  let: (w, _) := la_eig U in alcove_angles (tolist w).

Definition su3_alcove_coords {n : nat} (U : 'M[C]_n) : result (seq C) :=
  let angles := sorted_angles U in
  a0 <- getitem angles 0 ;;
  a1 <- getitem angles 1 ;;
  let e1 := a0 - a1 in
  a1 <- getitem angles 1 ;;
  a2 <- getitem angles 2 ;;
  let e2 := a1 - a2 in
  Ok [:: e1; e2].

Definition sun_alcove_coords {n : nat} (U : 'M[C]_n) : seq C :=
  let angles := sorted_angles U in
  np_diff angles.

Definition weyl_chamber_projection {n : nat} (g : 'M[C]_n)
    (lie_type : string) : outcome (seq C) :=
  if String.eqb lie_type "A" then Returned (sun_alcove_coords g)
  else NotImplementedError ("Lie type " ++ lie_type ++ " not yet implemented").

End Weyl.
End Weyl.

(** ** cartan.py *)

Module Cartan.
Section Cartan.

Context {C : numClosedFieldType} {B : Backend C}.

(** What [cartan_projection] returns: the coordinates, or the factors of
    the decomposition. *)
Inductive cartan_result (n : nat) : Type :=
  | LogS (log_S : seq (npfloat C))
  | Decomposition (K1 A K2 : 'M[C]_n).

Arguments LogS {n} log_S.
Arguments Decomposition {n} K1 A K2.

(** [np.argsort(S)], as a stable sort of the indices. *)
Definition np_argsort {n : nat} (v : 'rV[C]_n) : seq 'I_n :=
  sort (fun i j => v 0 i <= v 0 j) (enum 'I_n).

Definition cartan_projection {n : nat} (g : 'M[C]_n)
    (return_decomposition : bool) : cartan_result n :=
  let: (U, S_, Vh) := la_svd g in
  let S_sorted := rev (np_sort (tolist S_)) in
  let log_S := [seq np_log x | x <- S_sorted] in
  if return_decomposition then
    let A := \matrix_(i, j) if i == j then nth 0 S_sorted i else 0 in
    let perm := rev (np_argsort S_) in
    let K1 := \matrix_(i, j) U i (nth j perm j) in
    let K2 := \matrix_(i, j) Vh (nth i perm i) j in
    Decomposition K1 A K2
  else LogS log_S.

Definition polar_decomposition {n : nat} (A : 'M[C]_n)
  : 'M[C]_n * 'M[C]_n :=
  let: (U, S_, Vh) := la_svd A in
  let P := Vh ^t* *m diag_mx S_ *m Vh in
  let U_polar := U *m Vh in
  (U_polar, P).

(** [iwasawa_decomposition(A)]: each row of [R] is divided by the modulus of
    its diagonal entry. *)
Definition iwasawa_decomposition {n : nat} (A : 'M[C]_n)
  : 'M[C]_n * 'M[C]_n * 'M[npfloat C]_n :=
  let: (Q, R) := la_qr A in
  let K := Q in
  let diag_R := \row_i `|R i i| in
  let A_diag := diag_mx diag_R in
  let N := \matrix_(i, j) np_true_divide (R i j) (diag_R 0 i) in
  (K, A_diag, N).

(** [cartan_subalgebra_basis(lie_type, rank)]: the list [basis], one array
    per pass of the loop. *)
Definition cartan_subalgebra_basis (lie_type : string) (rank : nat)
  : outcome (seq (seq (seq C))) :=
  if String.eqb lie_type "A" then
    let n := (rank + 1)%N in
    of_result
      (for_ (range 0 rank) [::] (fun basis i =>
         let H := Geodesic.np_zeros n n in
         H <- setitem2 H i i 1 ;;
         H <- setitem2 H i.+1 i.+1 (-1) ;;
         Ok (rcons basis H)))
  else if String.eqb lie_type "B" then
    NotImplementedError ("Type " ++ lie_type ++ " not yet implemented")
  else Raised (ValueError ("Unknown Lie type: " ++ lie_type)).

End Cartan.

Arguments LogS {C n} log_S.
Arguments Decomposition {C n} K1 A K2.

End Cartan.

(** ** The routines over the algebraic numbers

    An instance of the external routines over the field [algC], at which the
    theorems are applied to concrete inputs.  It is exact where the field
    allows: the eigendecomposition of a normal matrix is the spectral one,
    the correlation coefficients are computed from their definitions, a
    unitary matrix is its own left singular factor.  The random numbers, the
    exponential, the angle (the imaginary part stands in for it, being real,
    zero at 1 and odd under conjugation) and the logarithm are stand-ins,
    and the scikit-learn estimators are not provided. *)

Definition exact_pearsonr (x y : seq algC) : npfloat algC + string :=
  if (size x < 2)%N || (size x != size y) then
    inr "x and y must have the same length, at least 2"%string
  else if constant x || constant y then inl NonFinite
  else inl (Finite (pearson_coefficient x y)).

Definition exact_backend : Backend algC := {|
  rng := nat;
  np_random_randn := fun n m s => (const_mx s%:R, s.+1);
  la_qr := fun n Z => (1%:M, Z);
  np_exp := fun z => 1 + z;
  np_angle := fun z => 'Im z;
  np_root := fun n z => n.-root z;
  ln := fun z => z - 1;
  la_eig := fun n A => (spectral_diag A, (spectralmx A) ^t*);
  la_eigh := fun n A => (spectral_diag A, (spectralmx A) ^t*);
  la_svd := fun n A => (A, const_mx 1, 1%:M);
  isomap_fit_transform := fun _ _ _ => inr "not provided"%string;
  mds_fit_transform := fun _ _ _ => inr "not provided"%string;
  pca_fit_transform := fun _ _ => inr "not provided"%string;
  pearsonr := exact_pearsonr;
  spearmanr := fun x y => exact_pearsonr (rankdata x) (rankdata y)
|}.

(** The same routines with other stand-ins for the exponential and the
    angle: the Cayley transform, which maps the imaginary axis to the unit
    circle, and the length of the chord from 1, which vanishes at 1 only. *)
Definition circle_backend : Backend algC := {|
  rng := nat;
  np_random_randn := fun n m s => (const_mx s%:R, s.+1);
  la_qr := fun n Z => (1%:M, Z);
  np_exp := fun z => (1 + z / 2) / (1 - z / 2);
  np_angle := fun z => `|z - 1|;
  np_root := fun n z => n.-root z;
  ln := fun z => z - 1;
  la_eig := fun n A => (spectral_diag A, (spectralmx A) ^t*);
  la_eigh := fun n A => (spectral_diag A, (spectralmx A) ^t*);
  la_svd := fun n A => (A, const_mx 1, 1%:M);
  isomap_fit_transform := fun _ _ _ => inr "not provided"%string;
  mds_fit_transform := fun _ _ _ => inr "not provided"%string;
  pca_fit_transform := fun _ _ => inr "not provided"%string;
  pearsonr := exact_pearsonr;
  spearmanr := fun x y => exact_pearsonr (rankdata x) (rankdata y)
|}.

(** Three points on a line, at 0, 1 and 4. *)
Definition three_points : 'M[algC]_(3, 1) := \matrix_(i, k) (i * i)%:R.

(** * Properties *)

(** ** The routines over the algebraic numbers meet their contracts *)

Section ExactBackend.

Local Abbreviation B := exact_backend.

Lemma unitarymx1 (C : numClosedFieldType) n : (1%:M : 'M[C]_n) \is unitarymx.
Proof. by apply/unitarymxP; rw trmx1 map_mx1 mulmx1. Qed.

Lemma unitarymx_scalar (C : numClosedFieldType) n (a : C) :
  `|a| = 1 -> (a%:M : 'M[C]_n) \is unitarymx.
Proof.
move=> norm_a; apply/unitarymxP.
by rw tr_scalar_mx map_scalar_mx -scalar_mxM /= -normCK norm_a expr1n.
Qed.

Lemma unitarymx_i n : ('i%:M : 'M[algC]_n) \is unitarymx.
Proof. exact/unitarymx_scalar/normCi. Qed.

Lemma unitary_normal (C : numClosedFieldType) n (A : 'M[C]_n) :
  A \is unitarymx -> A \is normalmx.
Proof.
move=> unitaryA; apply/normalmxP; rw (unitarymxP unitaryA).
by rw -[RHS]mul1mx mulmxA mulmxKtV.
Qed.

(** The spectral decomposition of a normal matrix is an eigendecomposition. *)
Lemma spectral_eig n (A : 'M[algC]_n) :
  A \is normalmx ->
  A *m (spectralmx A) ^t* = (spectralmx A) ^t* *m diag_mx (spectral_diag A).
Proof.
move=> /orthomx_spectralP; rw invmx_unitary ?spectral_unitarymx //.
by move=> {1}->; rw mulmxtVK ?spectral_unitarymx.
Qed.

Lemma exact_la_eig_spec : la_eig_spec (B := B).
Proof.
move=> n A unitaryA; split=> /=.
  by rw unitarymx_unit // trmxC_unitary spectral_unitarymx.
exact/spectral_eig/unitary_normal.
Qed.

Lemma exact_eigh_ok n (A : 'M[algC]_n) :
  A \is normalmx -> eigh_ok A (la_eigh (Backend := B) A).
Proof.
move=> normalA; split=> /=; first by rw trmxC_unitary spectral_unitarymx.
exact: spectral_eig.
Qed.

Lemma exact_svd_ok n (A : 'M[algC]_n) :
  A \is unitarymx -> svd_ok A (la_svd (Backend := B) A).
Proof.
move=> unitaryA; split=> //=; first exact: unitarymx1.
  by move=> i; rw mxE ler01.
by rw diag_const_mx !mulmx1.
Qed.

Lemma exact_np_angle_spec : np_angle_spec (B := B).
Proof.
split=> [z||z] /=; first exact: Creal_Im.
  by apply/Creal_ImP; rw rpred1.
by rw Im_conj normrN.
Qed.

Lemma exact_pearsonr_ok (x y : seq algC) : pearsonr_ok (B := B) x y.
Proof.
rw /pearsonr_ok /= /exact_pearsonr.
by case: ifP => // _; case: ifP.
Qed.

Lemma real_rankdata (x : seq algC) :
  all (fun a => a \is Num.real) (rankdata x).
Proof.
apply/allP=> _ /mapP [a _ ->].
by rw rpredD ?rpredM ?rpredV ?rpredD ?realn ?rpred1.
Qed.

Lemma exact_spearmanr_ok (x y : seq algC) : spearmanr_ok (B := B) x y.
Proof.
rw /spearmanr_ok /= /exact_pearsonr !size_map.
case: ifP => // /norP [_ /negbNE /eqP eq_size]; case: ifP => // _.
exists (rankdata x), (rankdata y); split=> //; try exact: real_rankdata.
by rw !size_map.
Qed.

End ExactBackend.

(** ** The embedding on small inputs *)

Example upper_pairs_3 :
  Geodesic.upper_pairs 3 = [:: (0, 1); (0, 2); (1, 2)]%N.
Proof. by []. Qed.

Example np_diff_3 (C : numClosedFieldType) (a b c : C) :
  np_diff [:: a; b; c] = [:: b - a; c - b].
Proof. by []. Qed.

Example dict_get_n_neighbors :
  dict_get [:: ("random_state"%string, 7%N); ("n_neighbors"%string, 5%N)]
    "n_neighbors" 12%N = 5%N
  /\ dict_get [:: ("random_state"%string, 7%N)] "n_neighbors" 12%N = 12%N.
Proof. by []. Qed.

Example supported_method_names :
  [/\ Geodesic.supported_method "isomap", Geodesic.supported_method "mds",
      Geodesic.supported_method "pca"
    & Geodesic.supported_method "tsne" = false].
Proof. by []. Qed.

Example geodesic_embedding_invalid :
  Geodesic.geodesic_embedding (B := exact_backend) (m := 3) [::] "invalid" 2
    None [::] = Raise (ValueError "Unknown embedding method: invalid").
Proof. by []. Qed.

Example compute_distance_matrix_empty :
  Geodesic.compute_distance_matrix (B := exact_backend) (m := 3) [::] None
    = Ok [::].
Proof. by []. Qed.

Example random_sun_zero :
  Core.random_sun (B := exact_backend) 2 0 5%N = (Ok (Core.Batch [::]), 5%N).
Proof. by []. Qed.

Example compute_distance_matrix_3 (C : numClosedFieldType) (B : Backend C)
    (m : nat) (e0 e1 e2 : 'M[C]_m) (f : 'M[C]_m -> 'M[C]_m -> C) :
  Geodesic.compute_distance_matrix_traced [:: e0; e1; e2]
    (Some (Geodesic.returning f))
  = Ok (Geodesic.DmState
          [:: [:: 0; f e0 e1; f e0 e2];
              [:: f e0 e1; 0; f e1 e2];
              [:: f e0 e2; f e1 e2; 0]]
          [:: (0, 1); (0, 2); (1, 2)]%N).
Proof. by []. Qed.


(** ** Indexing in range *)

Section Indexing.

Variable A : Type.

Lemma getitem_nth (x0 : A) (s : seq A) (i : nat) :
  (i < size s)%N -> getitem s i = Ok (nth x0 s i).
Proof. by elim: s i => [|x s IH] [|i] //= /IH. Qed.

Lemma getitem_size (s : seq A) (i : nat) (x : A) :
  getitem s i = Ok x -> (i < size s)%N.
Proof. by elim: s i => [|y s IH] [|i] //= /IH. Qed.

Lemma setitem_set_nth (x0 : A) (s : seq A) (i : nat) (x : A) :
  (i < size s)%N -> setitem s i x = Ok (set_nth x0 s i x).
Proof. by elim: s i => [|y s IH] [|i] //= /IH ->. Qed.

End Indexing.

(** ** The distance matrix (geodesic.compute_distance_matrix) *)

Section DistanceMatrix.

Context {C : numClosedFieldType} {B : Backend C} {m : nat}.

Import Geodesic.

Lemma square_row n (D : seq (seq C)) i :
  square n D -> (i < n)%N -> size (nth [::] D i) = n.
Proof.
case/andP=> /eqP sD /(all_nthP [::]) rows ltin.
by apply/eqP/rows; rw sD.
Qed.

Lemma square_zeros n : square n (np_zeros n n : seq (seq C)).
Proof.
by rw /square /np_zeros size_nseq eqxx all_nseq size_nseq eqxx orbT.
Qed.

Lemma ent_zeros n i j : ent (np_zeros n n : seq (seq C)) i j = 0.
Proof.
rw /ent /np_zeros nth_nseq; case: ifP => _; last by rw nth_nil.
by rw nth_nseq if_same.
Qed.

Lemma getitem2_ent n (D : seq (seq C)) i j :
  square n D -> (i < n)%N -> (j < n)%N -> getitem2 D i j = Ok (ent D i j).
Proof.
move=> sq ltin ltjn; have sD : size D = n by case/andP: sq => /eqP.
rw /getitem2 (@getitem_nth _ [::]) ?sD //=.
by rw (@getitem_nth _ 0) // (square_row sq).
Qed.

Lemma setitem2_upd n (D : seq (seq C)) i j x :
  square n D -> (i < n)%N -> (j < n)%N -> setitem2 D i j x = Ok (upd D i j x).
Proof.
move=> sq ltin ltjn; have sD : size D = n by case/andP: sq => /eqP.
rw /setitem2 (@getitem_nth _ [::]) ?sD //=.
rw (@setitem_set_nth _ 0) ?(square_row sq) //=.
by rw (@setitem_set_nth _ [::]) ?sD.
Qed.

Lemma square_upd n (D : seq (seq C)) i j x :
  square n D -> (i < n)%N -> (j < n)%N -> square n (upd D i j x).
Proof.
move=> sq ltin ltjn; case/andP: (sq) => /eqP sD _.
have sU : size (upd D i j x) = n.
  by rw /upd size_set_nth sD; apply/maxn_idPr.
rw /square sU eqxx /=; apply/(all_nthP [::]) => a; rw sU => ltan.
rw /upd nth_set_nth /=; case: (a == i); last by rw (square_row sq).
by rw size_set_nth (square_row sq) //; apply/eqP/maxn_idPr.
Qed.

Lemma ent_upd (D : seq (seq C)) i j x a b :
  ent (upd D i j x) a b = if (a == i) && (b == j) then x else ent D a b.
Proof.
rw /ent /upd nth_set_nth /=; case: (a =P i) => [->|//].
by rw nth_set_nth /=; case: (b == j).
Qed.

Section Loops.

Variables (elements : seq 'M[C]_m) (f : 'M[C]_m -> 'M[C]_m -> C).
Variable e0 : 'M[C]_m.

Let n := size elements.
Let e (i : nat) : 'M[C]_m := nth e0 elements i.
Let metric : 'M[C]_m -> 'M[C]_m -> result C := returning f.

Lemma dm_body_inv ps st i j :
  dm_inv elements f e0 ps st -> (i < j < n)%N ->
  exists2 st', dm_body elements metric i st j = Ok st'
             & dm_inv elements f e0 (rcons ps (i, j)) st'.
Proof.
case=> sq calls tri cells /andP [ltij ltjn].
have ltin : (i < n)%N := ltn_trans ltij ltjn.
rw /dm_body !(@getitem_nth _ e0) //= (setitem2_upd _ sq) //=.
rw (setitem2_upd _ (square_upd _ sq _ _)) //=.
eexists; first by []; split=> /=.
- by rw !square_upd.
- by rw calls.
- by rw all_rcons /= ltij ltjn.
move=> a b; rw !ent_upd cells !mem_rcons !in_cons !xpair_eqE.
have nji : (j == i) = false by rw gtn_eqF.
have njips : ((j, i) \in ps) = false.
  apply/negP=> /(allP tri) /= /andP [ltji _].
  by move: (ltn_trans ltij ltji); rw ltnn.
case: (a =P j) => [->|_] /=; case: (b =P i) => [->|_] /=.
- by rw nji njips.
- by rw nji.
- by rw (ltn_eqF ltij) andbF.
by case: ifP => // /andP [/eqP -> /eqP ->].
Qed.

Lemma dm_inner_inv ps st i js :
  dm_inv elements f e0 ps st -> all (fun j => i < j < n)%N js ->
  exists2 st', for_ js st (dm_body elements metric i) = Ok st'
             & dm_inv elements f e0 (ps ++ [seq (i, j) | j <- js]) st'.
Proof.
elim: js ps st => [|j js IH] ps st inv /=.
  by move=> _; exists st; rw ?cats0.
case/andP=> ltj ltjs; have [st1 -> inv1] := dm_body_inv inv ltj.
by rw -cat_rcons /=; apply: IH.
Qed.

Lemma dm_outer_inv ps st rows :
  dm_inv elements f e0 ps st -> all (fun i => i < n)%N rows ->
  exists2 st',
    for_ rows st (fun st i =>
      for_ (range i.+1 n) st (dm_body elements metric i)) = Ok st'
    & dm_inv elements f e0
        (ps ++ flatten [seq [seq (i, j) | j <- range i.+1 n] | i <- rows]) st'.
Proof.
elim: rows ps st => [|i rows IH] ps st inv /=.
  by move=> _; exists st; rw ?cats0.
case/andP=> ltin ltrows.
have [|st1 -> inv1] := dm_inner_inv (i := i) (js := range i.+1 n) inv.
  apply/allP=> j; rw /range mem_iota => /andP [ltij].
  by rw ltij subnKC.
by rw catA /=; apply: IH.
Qed.

End Loops.

Lemma mem_upper_pairs n a b : ((a, b) \in upper_pairs n) = (a < b < n)%N.
Proof.
apply/flatten_mapP/idP => [[i]|/andP [ltab ltbn]].
  rw /range mem_iota subn0 add0n /= => ltin /mapP [j].
  by rw mem_iota subnKC // => /andP [ltij ltjn] [-> ->]; rw ltij.
have ltan : (a < n)%N := ltn_trans ltab ltbn.
exists a; first by rw /range mem_iota subn0 add0n.
by apply/mapP; exists b; rw // /range mem_iota ltab subnKC.
Qed.

(** C3.  For every list of [k] elements and every injected metric [f] (a
    function that returns), the builder returns a [k] x [k] array whose
    diagonal is exactly zero and whose cells [(i, j)] and [(j, i)], for
    [i < j], both hold [f] applied to the elements [i] and [j]; the metric
    is called exactly at the pairs of the strict upper triangle, row by row,
    hence never at a pair [(i, i)] nor at a pair with [j < i]. *)
Theorem compute_distance_matrix_upper_triangle
    (elements : seq 'M[C]_m) (f : 'M[C]_m -> 'M[C]_m -> C) :
  let k := size elements in
  let metric := Some (returning f) in
  exists D : seq (seq C),
    [/\ compute_distance_matrix_traced elements metric
          = Ok (DmState D (upper_pairs k))
       /\ compute_distance_matrix elements metric = Ok D,
       size D = k /\ all (fun row => size row == k) D,
       forall i, (i < k)%N -> getitem2 D i i = Ok 0,
       forall i j ei ej, (i < j)%N ->
         getitem elements i = Ok ei -> getitem elements j = Ok ej ->
         getitem2 D i j = Ok (f ei ej) /\ getitem2 D j i = Ok (f ei ej)
     & forall i j, ((i, j) \in upper_pairs k) = (i < j < k)%N].
Proof.
move=> k metric; rw /compute_distance_matrix.
rw /compute_distance_matrix_traced /metric.
case def_els: elements => [|e0 els]; rw -?def_els.
  exists [::]; rw /k def_els /=; split=> //.
  by move=> i j; rw mem_upper_pairs ltn0 andbF.
have inv0 : dm_inv elements f e0 [::] (DmState (np_zeros k k) [::]).
  split=> //=; first exact: square_zeros.
  by move=> a b; rw ent_zeros ?in_nil.
have [|[D calls] -> [/= sq -> _ cells]] :=
    dm_outer_inv (rows := range 0 k) inv0.
  by apply/allP=> i; rw /range mem_iota subn0 add0n.
exists D; split=> //.
- by case/andP: sq => /eqP.
- move=> i ltik; rw (getitem2_ent sq) // cells.
  by rw !mem_upper_pairs ltnn.
- move=> i j ei ej ltij get_i get_j.
  have ltjk : (j < k)%N := getitem_size get_j.
  have ltik : (i < k)%N := getitem_size get_i.
  move: get_i get_j; rw !(@getitem_nth _ e0) // => -[<-] [<-].
  rw !(getitem2_ent sq) // !cells !mem_upper_pairs ltij ltjk /=.
  by rw ltnNge (ltnW ltij).
exact: mem_upper_pairs.
Qed.

End DistanceMatrix.

(** ** Exceptions that are not raised *)

Section NoValueError.

Variables A S : Type.

Lemma no_value_error_Ok (a : A) : no_value_error (Ok a).
Proof. by []. Qed.

Lemma no_value_error_bind (r : result A) (k : A -> result S) :
  no_value_error r -> (forall a, no_value_error (k a)) ->
  no_value_error (bind r k).
Proof.
case: r => [a|e] /= nr nk; first exact: nk.
by move=> msg [eq_e]; apply: (nr msg); rw eq_e.
Qed.

End NoValueError.

Section NoValueErrorLoops.

Variables A S : Type.

Lemma no_value_error_for (xs : seq A) (st : S) (body : S -> A -> result S) :
  (forall st x, no_value_error (body st x)) -> no_value_error (for_ xs st body).
Proof.
move=> nbody; elim: xs st => [|x xs IH] st //=.
exact: no_value_error_bind.
Qed.

Lemma no_value_error_getitem (s : seq A) i : no_value_error (getitem s i).
Proof. by elim: s i => [|x s IH] [|i] //=. Qed.

Lemma no_value_error_setitem (s : seq A) i x : no_value_error (setitem s i x).
Proof.
elim: s i => [|y s IH] [|i] //=.
by apply: no_value_error_bind => //; apply: IH.
Qed.

Lemma no_value_error_external (r : A + string) : no_value_error (external r).
Proof. by case: r. Qed.

End NoValueErrorLoops.

Lemma no_value_error_setitem2 (A : Type) (D : seq (seq A)) i j x :
  no_value_error (setitem2 D i j x).
Proof.
apply: no_value_error_bind; first exact: no_value_error_getitem.
move=> row; apply: no_value_error_bind; first exact: no_value_error_setitem.
by move=> row'; apply: no_value_error_setitem.
Qed.

(** ** The dispatcher (geodesic.geodesic_embedding) *)

Section GeodesicEmbedding.

Context {C : numClosedFieldType} {B : Backend C} {m : nat}.

Import Geodesic.

Lemma no_value_error_bi_invariant_distance (U V : 'M[C]_m) :
  no_value_error (Core.bi_invariant_distance U V).
Proof.
rw /Core.bi_invariant_distance /Core.matrix_log.
case: (la_eig _) => w P; apply: no_value_error_bind.
  by rw /la_inv; case: ifP.
by move=> L; rw /la_norm_fro; case: ifP.
Qed.

Lemma no_value_error_compute_distance_matrix (elements : seq 'M[C]_m)
    (f : option ('M[C]_m -> 'M[C]_m -> C)) :
  no_value_error (compute_distance_matrix elements (omap returning f)).
Proof.
apply: no_value_error_bind => // .
apply: no_value_error_for => st i; apply: no_value_error_for => {}st j.
apply: no_value_error_bind; first exact: no_value_error_getitem.
move=> ei; apply: no_value_error_bind; first exact: no_value_error_getitem.
move=> ej; apply: no_value_error_bind.
  by case: f => [f|] //=; apply: no_value_error_bi_invariant_distance.
move=> d; apply: no_value_error_bind; first exact: no_value_error_setitem2.
by move=> D1; apply: no_value_error_bind; first exact: no_value_error_setitem2.
Qed.

(** C7.  For a method outside the supported ones, [geodesic_embedding]
    raises the unknown-method error whatever the collection, the metric and
    the other arguments; for a supported method it raises no [ValueError] of
    its own, hence not that one, for the default metric and for every
    injected metric that returns. *)
Theorem geodesic_embedding_unknown_method (elements : seq 'M[C]_m)
    (method : string) (n_components : nat) (kwargs : seq (string * nat)) :
  if supported_method method then
    forall f : option ('M[C]_m -> 'M[C]_m -> C),
      no_value_error
        (geodesic_embedding elements method n_components (omap returning f)
           kwargs)
  else
    forall distance_func,
      geodesic_embedding elements method n_components distance_func kwargs
        = Raise (UnknownMethod method).
Proof.
rw /supported_method /geodesic_embedding.
case: (String.eqb method "isomap") => /=.
  move=> f; apply: no_value_error_bind => // .
  apply: no_value_error_bind; first exact: no_value_error_compute_distance_matrix.
  move=> D; apply: no_value_error_bind; first exact: no_value_error_external.
  by move=> embedding.
case: (String.eqb method "mds") => /=.
  move=> f.
  apply: no_value_error_bind; first exact: no_value_error_compute_distance_matrix.
  by move=> D; apply: no_value_error_external.
case: (String.eqb method "pca") => //= f.
exact: no_value_error_external.
Qed.

End GeodesicEmbedding.

(** ** Sampling (core.random_su, core.random_sun) *)

Section Sampling.

Context {C : numClosedFieldType} {B : Backend C}.

Import Core.

Lemma random_su_Ok n s :
  (0 < n)%N -> exists U, random_su n s = (Ok U, random_su_state n s).
Proof.
case: n => // n _; rw /random_su_state /random_su.
case: (np_random_randn _ _ s) => Zr s1; case: (np_random_randn _ _ s1) => Zi s2.
by case: (la_qr _) => Q R /=; eexists.
Qed.

Lemma random_su_list_Ok n k s :
  (0 < n)%N ->
  exists Us, [/\ random_su_list n k s = (Ok Us, iter k (random_su_state n) s),
                 size Us = k
               & forall i, (i < k)%N -> nth_sample n s i = Ok (nth 0 Us i)].
Proof.
move=> n_gt0; elim: k s => [|k IH] s /=; first by exists [::].
have [U eqU] := random_su_Ok s n_gt0; rw eqU.
have [Us [-> sizeUs nthUs]] := IH (random_su_state n s).
exists (U :: Us); rw /= sizeUs -iterSr; split=> // -[_|i ltik] /=.
  by rw /nth_sample /= eqU.
by rw -nthUs // /nth_sample iterSr.
Qed.

(** C8, as the code has it.  For a dimension [n >= 1], [random_sun(n, k)]
    with [k <> 1] returns a list of exactly [k] matrices, the outcomes of
    [k] successive calls of [random_su(n)] in call order; with [k = 1] it
    returns the bare matrix of one call, not a list. *)
Theorem random_sun_samples (n k : nat) (s : rng) :
  (0 < n)%N ->
  if k == 1%N then
    exists U, random_sun n k s = (Ok (Single U), random_su_state n s)
              /\ nth_sample n s 0 = Ok U
  else
    exists Us, [/\ random_sun n k s
                     = (Ok (Batch Us), iter k (random_su_state n) s),
                   size Us = k
                 & forall i, (i < k)%N -> nth_sample n s i = Ok (nth 0 Us i)].
Proof.
move=> n_gt0; rw /random_sun; case: (k == 1%N).
  have [U eqU] := random_su_Ok s n_gt0.
  by exists U; rw /nth_sample /= eqU.
have [Us [eqUs sizeUs nthUs]] := random_su_list_Ok k s n_gt0.
by exists Us; rw eqUs.
Qed.

Lemma random_sun_one_not_Batch n s Us s' :
  random_sun n 1 s <> (Ok (Batch Us), s').
Proof.
by rw /random_sun /=; case: (random_su n s) => [[U|e] s1].
Qed.

End Sampling.

(** The theorem at [n = 2] and [k = 3], with the routines over the
    algebraic numbers and the generator in state 0. *)
Lemma random_sun_samples_witness :
  exists Us : seq 'M[algC]_2,
    [/\ Core.random_sun (B := exact_backend) 2 3 0%N
          = (Ok (Core.Batch Us),
             iter 3 (Core.random_su_state (B := exact_backend) 2) 0%N),
        size Us = 3%N
      & forall i, (i < 3)%N ->
          Core.nth_sample (B := exact_backend) 2 0%N i = Ok (nth 0 Us i)].
Proof. exact: (random_sun_samples (B := exact_backend) 3 0%N (ltn0Sn 1)). Defined.

(** C8 fails at [k = 1]: [random_sun(2, 1)] returns a bare matrix, and
    no list. *)
Lemma random_sun_one_sample :
  (exists U s', Core.random_sun (B := exact_backend) 2 1 0%N
                  = (Ok (Core.Single U), s'))
  /\ ~ (exists Us s', Core.random_sun (B := exact_backend) 2 1 0%N
                        = (Ok (Core.Batch Us), s') /\ size Us = 1%N).
Proof.
split; last by case=> Us [s' [/random_sun_one_not_Batch]].
have [U eqU] := random_su_Ok (B := exact_backend) 0%N (ltn0Sn 1).
exists U, (Core.random_su_state (B := exact_backend) 2 0%N).
by rw /Core.random_sun eqU.
Qed.

(** ** Eigenvalues as roots of the characteristic polynomial *)

Section Eigenvalues.

Context {C : numClosedFieldType}.

Lemma size_tolist n (v : 'rV[C]_n) : size (tolist v) = n.
Proof. by rw /tolist size_map size_enum_ord. Qed.

Lemma prod_tolist n (v : 'rV[C]_n) (F : C -> {poly C}) :
  \prod_(x <- tolist v) F x = \prod_(i < n) F (v 0 i).
Proof. by rw /tolist big_map big_enum. Qed.

(** Similar matrices have the same characteristic polynomial. *)
Lemma char_poly_similar n (P A M : 'M[C]_n) :
  P \in unitmx -> A *m P = P *m M -> char_poly A = char_poly M.
Proof.
move=> unitP eqAP; pose Pp := map_mx polyC P.
have eq_mx : char_poly_mx A *m Pp = Pp *m char_poly_mx M.
  rw /char_poly_mx mulmxBl mulmxBr -!map_mxM eqAP; congr (_ - _).
  by rw mul_scalar_mx -scalemx1 -scalemxAr mulmx1.
have: \det (char_poly_mx A) * \det Pp = \det Pp * \det (char_poly_mx M).
  by rw -!det_mulmx eq_mx.
rw mulrC; apply: mulfI.
by rw det_map_mx polyC_eq0 -unitfE -unitmxE.
Qed.

Lemma eig_ok_char_poly n (A : 'M[C]_n) wV :
  eig_ok A wV -> char_poly A = \prod_(x <- tolist wV.1) ('X - x%:P).
Proof.
case=> unitV eqAV; rw (char_poly_similar unitV eqAV).
rw char_poly_trig ?diag_mx_is_trig // prod_tolist.
by apply: eq_bigr => i _; rw mxE eqxx mulr1n.
Qed.

(** The eigenvalues of similar matrices, as [la.eig] returns them, are the
    same up to their order. *)
Lemma eig_ok_perm n (P A M : 'M[C]_n) wV wV' :
  P \in unitmx -> A *m P = P *m M -> eig_ok A wV -> eig_ok M wV' ->
  perm_eq (tolist wV.1) (tolist wV'.1).
Proof.
move=> unitP eqAP /eig_ok_char_poly eqA /eig_ok_char_poly eqM.
by apply: prod_XsubC_eq; rw -eqA -eqM; apply: char_poly_similar eqAP.
Qed.

End Eigenvalues.

(** ** Alcove coordinates (weyl.su3_alcove_coords, weyl.sun_alcove_coords) *)

Section Alcove.

Context {C : numClosedFieldType} {B : Backend C}.

Import Weyl.

Lemma size_alcove_angles (w : seq C) : size (alcove_angles w) = size w.
Proof. by rw /alcove_angles size_rev /np_sort size_sort !size_map. Qed.

Lemma size_sorted_angles n (U : 'M[C]_n) : size (sorted_angles U) = n.
Proof.
by rw /sorted_angles; case: (la_eig U) => w V;
   rw size_alcove_angles size_tolist.
Qed.

Lemma np_mean_perm (a b : seq C) : perm_eq a b -> np_mean a = np_mean b.
Proof. by move=> eq_ab; rw /np_mean (perm_big _ eq_ab) (perm_size eq_ab). Qed.

Lemma np_mean_real (a : seq C) :
  all (fun x => x \is Num.real) a -> np_mean a \is Num.real.
Proof.
move=> /allP real_a; rw /np_mean rpredM ?rpredV ?realn //.
by rw big_seq rpred_sum.
Qed.

(** The sorted angles depend on the eigenvalues only up to their order. *)
Lemma alcove_angles_perm (w w' : seq C) :
  np_angle_real -> perm_eq w w' -> alcove_angles w = alcove_angles w'.
Proof.
move=> angle_real eq_w; rw /alcove_angles /np_sort; congr rev.
have eq_ang : perm_eq [seq np_angle z | z <- w] [seq np_angle z | z <- w'].
  exact: perm_map.
rw (np_mean_perm eq_ang); set mean := np_mean _.
have real_mean : mean \is Num.real.
  by apply: np_mean_real; apply/allP=> _ /mapP [z _ ->].
apply/perm_sort_inP; last exact: perm_map.
- move=> _ _ /mapP [x /mapP [z _ ->] ->] /mapP [y /mapP [z' _ ->] ->].
  by apply: real_leVge; rw rpredB.
- by move=> y x z _ _ _; apply: le_trans.
by move=> x y _ _; apply: le_anti.
Qed.


(** C10.  On a 3 x 3 matrix [sun_alcove_coords] returns the opposite of
    what [su3_alcove_coords] returns: [np.diff] of the angles sorted in
    descending order is [a1 - a0, a2 - a1], while the SU(3) routine returns
    [a0 - a1, a1 - a2].  The two agree only where both coordinates vanish. *)
Theorem sun_alcove_coords_opposite_su3 (U : 'M[C]_3) :
  exists e1 e2 : C,
    [/\ su3_alcove_coords U = Ok [:: e1; e2],
        sun_alcove_coords U = [:: - e1; - e2]
      & su3_alcove_coords U = Ok (sun_alcove_coords U)
        <-> e1 = 0 /\ e2 = 0].
Proof.
rw /su3_alcove_coords /sun_alcove_coords.
move: (size_sorted_angles U); case: (sorted_angles U) => [|a0 [|a1 [|a2 [|]]]] //.
move=> _; exists (a0 - a1), (a1 - a2); rw /= !opprB; split=> //.
have half (x y : C) : x - y = y - x -> x - y = 0.
  move=> eq_xy; have: (x - y) *+ 2 == 0.
    by rw mulr2n {2}eq_xy addrA subrK subrr.
  by rw mulrn_eq0 /= => /eqP.
split=> [[/half eq1 /half eq2]|[eq1 eq2]] //.
by rw -(opprB a0 a1) -(opprB a1 a2) eq1 eq2 oppr0.
Qed.

End Alcove.


(** ** Polar decomposition (core.polar_decomposition, cartan.polar_decomposition) *)

Section Polar.

Context {C : numClosedFieldType} {B : Backend C}.

Lemma mulmx_conjC_unitary n (U : 'M[C]_n) :
  U \is unitarymx -> U ^t* *m U = 1%:M.
Proof. by move=> unitaryU; rw -[LHS]mul1mx mulmxA mulmxKtV. Qed.

(** The eigenvalues of [Vh^* diag(S) Vh], for a unitary [Vh], are entries
    of [S]. *)
Lemma eigenvalue_unitary_diag n (Vh : 'M[C]_n) (d : 'rV[C]_n) (a : C) :
  Vh \is unitarymx -> eigenvalue (Vh ^t* *m diag_mx d *m Vh) a ->
  exists i, a = d 0 i.
Proof.
move=> unitaryVh /eigenvalueP [v eq_v v_neq0]; pose u := v *m Vh ^t*.
have eq_u : u *m diag_mx d = a *: u.
  by rw /u scalemxAl -eq_v !mulmxA mulmxtVK.
have /rV0Pn [i ui_neq0] : u != 0.
  apply: contraNneq v_neq0 => u_eq0.
  by rw -[v](mulmxKtV _ unitaryVh) // -/u u_eq0 mul0mx.
clearbody u; exists i; move/matrixP/(_ 0 i): eq_u.
by rw mul_mx_diag !mxE mulrC => /(mulIf ui_neq0) ->.
Qed.


End Polar.

(** ** Cartan projection (cartan.cartan_projection) *)

Section CartanProjection.

Context {C : numClosedFieldType} {B : Backend C}.

Import Cartan.

(** The squares of the singular values are the roots of the characteristic
    polynomial of [A^* A]. *)
Lemma svd_ok_char_poly n (A : 'M[C]_n) USV :
  svd_ok A USV ->
  char_poly (A ^t* *m A) = \prod_(x <- tolist USV.1.2) ('X - (x ^+ 2)%:P).
Proof.
case: USV => [[U S_] Vh] [/= unitaryU unitaryVh S_ge0 eqA].
have eq_conj : (diag_mx S_) ^t* = diag_mx S_.
  rw tr_diag_mx map_diag_mx; congr diag_mx.
  by apply/rowP=> i; rw mxE; apply: conj_Creal; apply: ger0_real.
have unitVh : Vh ^t* \in unitmx by rw unitarymx_unit ?trmxC_unitary.
have -> : char_poly (A ^t* *m A) = char_poly (diag_mx S_ *m diag_mx S_).
  apply: (char_poly_similar unitVh).
  rw eqA !trmx_mul !map_mxM eq_conj -!mulmxA; congr (_ *m (_ *m _)).
  rw (unitarymxP unitaryVh) mulmx1 mulmxA.
  by rw (_ : _ *m U = 1%:M) ?mul1mx //; apply: mulmx_conjC_unitary.
rw mulmx_diag char_poly_trig ?diag_mx_is_trig // prod_tolist.
by apply: eq_bigr => i _; rw !mxE eqxx mulr1n expr2.
Qed.

(** The singular values of [Q g Q'], for unitary [Q] and [Q'], are those
    of [g] up to their order. *)
Lemma svd_ok_perm n (g Q Q' : 'M[C]_n) USV USV' :
  Q \is unitarymx -> Q' \is unitarymx ->
  svd_ok g USV -> svd_ok (Q *m g *m Q') USV' ->
  perm_eq (tolist USV'.1.2) (tolist USV.1.2).
Proof.
move=> unitaryQ unitaryQ' ok ok'.
have sqrt_sqr : forall USV0 (A : 'M[C]_n), svd_ok A USV0 ->
    tolist USV0.1.2 = [seq sqrtC y | y <- [seq x ^+ 2 | x <- tolist USV0.1.2]].
  move=> USV0 A [_ _ ge0 _]; rw -map_comp map_id_in //.
  by move=> _ /mapP [i _ ->] /=; apply: sqrCK.
rw (sqrt_sqr _ _ ok) (sqrt_sqr _ _ ok').
apply/perm_map/prod_XsubC_eq; rw [LHS]big_map [RHS]big_map.
rw -(svd_ok_char_poly ok) -(svd_ok_char_poly ok').
apply: (char_poly_similar (P := Q' ^t*)).
  by rw unitarymx_unit ?trmxC_unitary.
rw !trmx_mul !map_mxM !mulmxA mulmxtVK //; congr (_ *m _).
rw -[LHS]mulmxA (_ : _ *m Q = 1%:M) ?mulmx1 //.
exact: mulmx_conjC_unitary.
Qed.


End CartanProjection.



(** ** The bi-invariant distance (core.matrix_log, core.bi_invariant_distance) *)

Section Distance.

Context {C : numClosedFieldType} {B : Backend C}.

Import Core.

(** The squared Frobenius norm is the trace of [A A^*]. *)
Lemma fro_trace n (A : 'M[C]_n) :
  \sum_i \sum_j `|A i j| ^+ 2 = \tr (A *m A ^t*).
Proof.
rw /mxtrace; apply: eq_bigr => i _; rw mxE.
by apply: eq_bigr => j _; rw !mxE normCK.
Qed.

(** The Frobenius norm is invariant under unitary conjugation. *)
Lemma fro_unitary_diag n (P : 'M[C]_n) (d : 'rV[C]_n) :
  P \is unitarymx ->
  \sum_i \sum_j `|(P ^t* *m diag_mx d *m P) i j| ^+ 2 = \sum_i `|d 0 i| ^+ 2.
Proof.
move=> unitaryP; rw fro_trace.
have -> : (P ^t* *m diag_mx d *m P) ^t* = P ^t* *m (diag_mx d) ^t* *m P.
  by rw !trmx_mul !map_mxM trmxCK mulmxA.
rw !mulmxA mulmxtVK // -mulmxA -[P ^t* *m _ *m _]mulmxA mxtrace_mulC.
rw -!mulmxA (unitarymxP unitaryP) mulmx1.
rw tr_diag_mx map_diag_mx mulmx_diag mxtrace_diag.
by apply: eq_bigr => i _; rw !mxE normCK.
Qed.

(** A function of a diagonalisable matrix does not depend on the basis of
    eigenvectors: what [V f(w) V^-1] is, for the eigenvalues [w] and
    eigenvectors [V] that [la.eig] returns, can be read off any unitary
    diagonalisation. *)
Lemma eig_fun_unitary (f : C -> C) n (X P V : 'M[C]_n) (w sp : 'rV[C]_n) :
  eig_ok X (w, V) -> P \is unitarymx -> X = P ^t* *m diag_mx sp *m P ->
  V *m diag_mx (map_mx f w) *m invmx V
    = P ^t* *m diag_mx (map_mx f sp) *m P.
Proof.
case=> /= unitV eqXV unitaryP eqX; pose M := P *m V.
have eqPX : P *m X = diag_mx sp *m P.
  by rw eqX !mulmxA (unitarymxP unitaryP) mul1mx.
have eqM : diag_mx sp *m M = M *m diag_mx w.
  by rw /M mulmxA -eqPX -!mulmxA eqXV.
have eqfM : diag_mx (map_mx f sp) *m M = M *m diag_mx (map_mx f w).
  clearbody M; apply/matrixP=> i j; rw mul_diag_mx mul_mx_diag !mxE.
  move/matrixP/(_ i j): eqM; rw mul_diag_mx mul_mx_diag !mxE.
  have [-> _|Mij_neq0] := eqVneq (M i j) 0; first by rw mulr0 mul0r.
  by rw [RHS]mulrC => /(mulIf Mij_neq0) ->; rw mulrC.
apply: (canLR (mulmxK unitV)).
rw -[P ^t* *m _ *m P *m V]mulmxA -[P ^t* *m _ *m _]mulmxA -/M eqfM.
by rw /M !mulmxA (mulmx_conjC_unitary unitaryP) mul1mx.
Qed.

(** The logarithm and the distance, read off a unitary diagonalisation. *)
Lemma matrix_log_unitary n (X P : 'M[C]_n) (sp : 'rV[C]_n) :
  la_eig_spec -> X \is unitarymx -> P \is unitarymx ->
  X = P ^t* *m diag_mx sp *m P ->
  matrix_log X false
    = Ok (finite_mx (P ^t* *m diag_mx ('i *: map_mx np_angle sp) *m P)).
Proof.
move=> eig_spec unitaryX unitaryP eqX; have := eig_spec _ _ unitaryX.
rw /matrix_log; case: (la_eig X) => w V ok.
have unitV : V \in unitmx by case: ok.
rw /la_inv unitV /=; congr (Ok (finite_mx _)).
have scale_map (v : 'rV[C]_n) :
    'i *: map_mx np_angle v = map_mx (fun z => 'i * np_angle z) v.
  by apply/rowP=> i; rw !mxE.
by rw !scale_map; apply: eig_fun_unitary ok unitaryP eqX.
Qed.

Lemma la_norm_fro_finite n (L : 'M[C]_n) :
  la_norm_fro (finite_mx L) = Ok (sqrtC (\sum_i \sum_j `|L i j| ^+ 2)).
Proof.
rw /la_norm_fro; case: forallP => [_|[]]; last first.
  by move=> i; apply/forallP=> j; rw mxE.
congr (Ok (sqrtC _)); apply: eq_bigr => i _; apply: eq_bigr => j _.
by rw mxE.
Qed.

Lemma distance_unitary n (U V P : 'M[C]_n) (sp : 'rV[C]_n) :
  la_eig_spec -> U \is unitarymx -> V \is unitarymx -> P \is unitarymx ->
  U ^t* *m V = P ^t* *m diag_mx sp *m P ->
  bi_invariant_distance U V = Ok (angle_norm sp).
Proof.
move=> eig_spec unitaryU unitaryV unitaryP eqX.
have unitaryX : U ^t* *m V \is unitarymx.
  by rw mul_unitarymx ?trmxC_unitary.
rw /bi_invariant_distance (matrix_log_unitary eig_spec unitaryX unitaryP eqX).
rw /= la_norm_fro_finite fro_unitary_diag //; congr (Ok (sqrtC _)).
by apply: eq_bigr => i _; rw !mxE normrM normCi mul1r.
Qed.


End Distance.


(** ** The Hermitian logarithm (core.matrix_log with [hermitian=True]) *)

Section HermitianLog.

Context {C : numClosedFieldType} {B : Backend C}.

Import Core.

(** A sum of floats with a non-finite term is not finite. *)
Lemma np_add_nonfinite (I : eqType) (r : seq I) (F : I -> npfloat C) (k : I) :
  k \in r -> F k = NonFinite ->
  \big[np_add/Finite 0]_(i <- r) F i = NonFinite.
Proof.
elim: r => [|i r IH] //; rw in_cons big_cons => /predU1P [<-|k_in_r] Fk.
  by rw Fk.
by rw (IH k_in_r Fk); case: (F i).
Qed.

Lemma np_matmul_nonfinite_col n (A M : 'M[npfloat C]_n) (k j : 'I_n) :
  M k j = NonFinite -> forall i, np_matmul A M i j = NonFinite.
Proof.
move=> Mkj i; rw mxE (@np_add_nonfinite _ _ _ k) ?mem_index_enum //.
by rw Mkj; case: (A i k).
Qed.

Lemma np_matmul_nonfinite_row n (A M : 'M[npfloat C]_n) (i k : 'I_n) :
  A i k = NonFinite -> forall j, np_matmul A M i j = NonFinite.
Proof.
move=> Aik j; rw mxE (@np_add_nonfinite _ _ _ k) ?mem_index_enum //.
by rw Aik.
Qed.

Lemma np_log_nonpositive (x : C) : x <= 0 -> np_log x = NonFinite.
Proof.
by rw /np_log => x_le0; case: ifP => // /(le_lt_trans x_le0); rw ltxx.
Qed.

(** The eigenvalues of [A] are among those [la.eigh] returns. *)
Lemma eigh_ok_eigenvalue n (A : 'M[C]_n) wV (a : C) :
  eigh_ok A wV -> eigenvalue A a -> exists i, wV.1 0 i = a.
Proof.
case: wV => w V [/= unitaryV eqAV] eig_a.
have unitaryVh : V ^t* \is unitarymx by rw trmxC_unitary.
have eqA : A = (V ^t*) ^t* *m diag_mx w *m V ^t*.
  by rw trmxCK -eqAV mulmxtVK.
by move: eig_a; rw eqA => /(eigenvalue_unitary_diag unitaryVh) [i ->]; exists i.
Qed.


(** Whatever [la.eigh] returns, the Hermitian branch raises nothing. *)
Lemma matrix_log_hermitian_returns n (U : 'M[C]_n) e :
  matrix_log U true <> Raise e.
Proof. by rw /matrix_log; case: (la_eigh U). Qed.

End HermitianLog.



(** ** Correlation and stress (geodesic.analyze_embedding_quality) *)

Section Correlation.

Context {C : numClosedFieldType}.

Local Abbreviation real_seq := (all (fun a : C => a \is Num.real)).

Lemma sumsq_ge0 (x : seq C) : real_seq x -> 0 <= \sum_(a <- x) a ^+ 2.
Proof.
move=> /allP real_x; rw big_seq; apply: sumr_ge0 => a /real_x real_a.
exact: real_exprn_even_ge0.
Qed.

Lemma sumsq_eq0 (x : seq C) :
  real_seq x -> \sum_(a <- x) a ^+ 2 = 0 -> all (fun a => a == 0) x.
Proof.
move=> /allP real_x /eqP sum0.
have sq_ge0 (a : C) : a \in x -> 0 <= a ^+ 2.
  by move=> /real_x real_a; apply: real_exprn_even_ge0.
move: sum0; rw big_seq (psumr_eq0 _ sq_ge0) => /allP sq0.
by apply/allP=> a a_in; move: (sq0 a a_in); rw a_in sqrf_eq0.
Qed.

Lemma real_centred (x : seq C) :
  real_seq x -> real_seq [seq a - np_mean x | a <- x].
Proof.
move=> real_x; have real_m := np_mean_real real_x.
by apply/allP=> _ /mapP [a /(allP real_x) real_a ->]; rw rpredB.
Qed.

Lemma constant_short (x : seq C) : (size x < 2)%N -> constant x.
Proof. by case: x => [|a [|b x]] //= _; rw /constant /= eqxx. Qed.

(** A real vector whose centred squares sum to zero is constant. *)
Lemma centred_sumsq_neq0 (x : seq C) :
  real_seq x -> ~~ constant x ->
  \sum_(a <- [seq a - np_mean x | a <- x]) a ^+ 2 != 0.
Proof.
move=> real_x; apply: contraNneq => /(sumsq_eq0 (real_centred real_x)).
rw all_map => /allP eq_mean.
have eq_m a : a \in x -> a = np_mean x.
  by move=> /eq_mean /=; rw subr_eq0 => /eqP.
apply/allP=> a a_in; apply/eqP; rw [LHS](eq_m a a_in).
case: x a_in eq_m {real_x eq_mean} => [|b x'] //= _ eq_m.
by rw -(eq_m b (mem_head _ _)).
Qed.

Lemma in_zip (s t : seq C) (p : C * C) :
  p \in zip s t -> p.1 \in s /\ p.2 \in t.
Proof.
elim: s t => [|a s IH] [|b t] //=; rw !in_cons.
case/predU1P=> [->|/IH [p1_in p2_in]] /=; first by rw !eqxx.
by rw p1_in p2_in !orbT.
Qed.

Lemma zip_diag (x : seq C) : zip x x = [seq (a, a) | a <- x].
Proof. by elim: x => [|a x IH] //=; rw IH. Qed.

(** The coefficient of a real vector that is not constant with itself. *)
Lemma pearson_coefficient_diag (x : seq C) :
  real_seq x -> ~~ constant x -> pearson_coefficient x x = 1.
Proof.
move=> real_x /(centred_sumsq_neq0 real_x) sum_neq0.
rw /pearson_coefficient zip_diag big_map /= -expr2 sqrtCK.
by under eq_bigr do rw -expr2; rw divff.
Qed.

(** Cauchy-Schwarz for two real vectors, paired entry by entry. *)
Lemma cauchy_schwarz_zip (zs : seq (C * C)) (sgn : bool) :
  all (fun p => (p.1 \is Num.real) && (p.2 \is Num.real)) zs ->
  let a := sqrtC (\sum_(p <- zs) p.1 ^+ 2) in
  let b := sqrtC (\sum_(p <- zs) p.2 ^+ 2) in
  0 < a * b -> (-1) ^+ sgn * (\sum_(p <- zs) p.1 * p.2) <= a * b.
Proof.
move=> /allP real_zs a b ab_gt0; pose s : C := (-1) ^+ sgn.
have real_s : s \is Num.real by rw /s rpredX // rpredN rpred1.
have ss : s * s = 1 by rw /s -expr2 -exprM mulnC exprM sqrrN expr1n expr1n.
have A_ge0 : 0 <= \sum_(p <- zs) p.1 ^+ 2.
  rw big_seq; apply: sumr_ge0 => p /real_zs /andP [real1 _].
  exact: real_exprn_even_ge0.
have B_ge0 : 0 <= \sum_(p <- zs) p.2 ^+ 2.
  rw big_seq; apply: sumr_ge0 => p /real_zs /andP [_ real2].
  exact: real_exprn_even_ge0.
have a_ge0 : 0 <= a by rw sqrtC_ge0.
have b_ge0 : 0 <= b by rw sqrtC_ge0.
have sq_ge0 : 0 <= \sum_(p <- zs) (b * p.1 - s * a * p.2) ^+ 2.
  rw big_seq; apply: sumr_ge0 => p /real_zs /andP [real1 real2].
  apply: real_exprn_even_ge0 => //.
  by rw rpredB // !rpredM // ger0_real.
have aa : a * a = \sum_(p <- zs) p.1 ^+ 2 by rw -expr2 sqrtCK.
have bb : b * b = \sum_(p <- zs) p.2 ^+ 2 by rw -expr2 sqrtCK.
have expand : \sum_(p <- zs) (b * p.1 - s * a * p.2) ^+ 2
    = (a * b) * (a * b - s * \sum_(p <- zs) p.1 * p.2) *+ 2.
  transitivity ((b * b) * (\sum_(p <- zs) p.1 ^+ 2)
                - (s * a * b * \sum_(p <- zs) p.1 * p.2) *+ 2
                + (a * a) * (\sum_(p <- zs) p.2 ^+ 2)); last first.
    by rw -aa -bb; ring.
  rw !mulr_sumr -sumrMnl -sumrB -big_split /=.
  by apply: eq_bigr => p _; ring: ss.
move: sq_ge0; rw expand pmulrn_lge0 // pmulr_rge0 // subr_ge0.
by [].
Qed.

(** The coefficient of two real vectors of the same length lies in
    [-1, 1]. *)
Lemma pearson_coefficient_bounds (x y : seq C) :
  real_seq x -> real_seq y -> size x = size y ->
  -1 <= pearson_coefficient x y <= 1.
Proof.
move=> real_x real_y eq_size; rw /pearson_coefficient.
set xm := [seq _ | a <- x]; set ym := [seq _ | b <- y]; pose zs := zip xm ym.
have size_m : size xm = size ym by rw !size_map.
have eq_xm : \sum_(a <- xm) a ^+ 2 = \sum_(p <- zs) p.1 ^+ 2.
  by rw -[in LHS](@unzip1_zip _ _ xm ym) ?size_m // big_map.
have eq_ym : \sum_(b <- ym) b ^+ 2 = \sum_(p <- zs) p.2 ^+ 2.
  by rw -[in LHS](@unzip2_zip _ _ xm ym) ?size_m // big_map.
rw eq_xm eq_ym -/zs.
set a := sqrtC _; set b := sqrtC _; set N := \sum_(p <- zs) _.
have real_zs : all (fun p => (p.1 \is Num.real) && (p.2 \is Num.real)) zs.
  apply/allP=> p /in_zip [p1_in p2_in].
  by rw (allP (real_centred real_x)) // (allP (real_centred real_y)).
have ab_ge0 : 0 <= a * b.
  by rw mulr_ge0 // sqrtC_ge0 big_seq; apply: sumr_ge0 => p /(allP real_zs)
     /andP [r1 r2]; apply: real_exprn_even_ge0.
move: ab_ge0; rw le_eqVlt => /predU1P [<-|ab_gt0].
  by rw invr0 mulr0 lerN10 ler01.
have := cauchy_schwarz_zip false real_zs ab_gt0.
have := cauchy_schwarz_zip true real_zs ab_gt0.
rw expr1 expr0 mul1r mulN1r -/N -/a -/b => leN le.
by rw ler_pdivrMr // ler_pdivlMr // mul1r mulN1r lerNl leN le.
Qed.

End Correlation.

Section Quality.

Context {C : numClosedFieldType} {B : Backend C}.

Import Geodesic.

Lemma pdist_square_ge0 n d (E : 'M[C]_(n, d)) (i j : 'I_n) :
  E \is a realmx -> 0 <= pdist_square E i j.
Proof.
move=> /mxOverP realE; rw mxE sqrtC_ge0; apply: sumr_ge0 => k _.
by apply: real_exprn_even_ge0 => //; rw rpredB.
Qed.

Lemma foldl_max_in (x : C) (s : seq C) : foldl Num.max x s \in x :: s.
Proof.
elim: s x => [|y s IH] x /=; first by rw mem_head.
have := IH (Num.max x y); rw !in_cons maxElt.
by case: ifP => _ /predU1P [->|->]; rw ?eqxx ?orbT.
Qed.

Lemma np_max_nonempty (x : seq C) :
  (0 < size x)%N -> exists a, np_max x = Ok a.
Proof. by case: x => [|b x] // _; exists (foldl Num.max b x). Qed.

Lemma np_max_ge0 (x : seq C) (a : C) :
  np_max [seq `|b| | b <- x] = Ok a -> 0 <= a.
Proof.
case: x => [|b x] //= [<-].
have := foldl_max_in `|b| [seq `|b0| | b0 <- x].
by rw in_cons => /predU1P [->|/mapP [c _ ->]].
Qed.

Lemma np_sqrt_ge0 (x : npfloat C) (s : C) : np_sqrt x = Finite s -> 0 <= s.
Proof. by case: x => [x|] //=; case: ifP => // x_ge0 [<-]; rw sqrtC_ge0. Qed.

Lemma np_mean_float_ge0 (x : seq C) (a : C) :
  np_mean_float [seq `|b| | b <- x] = Finite a -> 0 <= a.
Proof.
rw /np_mean_float /np_true_divide; case: ifP => // _ [<-].
by rw divr_ge0 ?ler0n // big_map sumr_ge0.
Qed.

(** C9, as the code has it.  For a real embedding and a real distance
    matrix, with [pearsonr] and [spearmanr] meeting their contracts at the
    two vectors of distances: when the distances of the embedding are the
    upper-triangle entries of the matrix and these are not all equal, the
    analyzer returns Pearson correlation 1 and normalized stress 0; and
    whatever it returns, each correlation that is finite lies in [-1, 1],
    the stress and the mean distortion are non-negative when finite, and
    the maximal distortion is non-negative. *)
Theorem analyze_embedding_quality_perfect n d
    (E : 'M[C]_(n, d)) (D : 'M[C]_n) :
  let orig_flat := [seq D p.1 p.2 | p <- triu_indices n] in
  let embed_flat := [seq pdist_square E p.1 p.2 | p <- triu_indices n] in
  E \is a realmx -> D \is a realmx ->
  pearsonr_ok orig_flat embed_flat -> spearmanr_ok orig_flat embed_flat ->
  (perfect_embedding E D -> ~~ constant orig_flat ->
   exists q, [/\ analyze_embedding_quality E D = Ok q,
                 pearson_correlation q = Finite 1
               & normalized_stress q = Finite 0])
  /\ (forall q, analyze_embedding_quality E D = Ok q -> quality_bounds q).
Proof.
move=> orig embed realE realD pr_ok sr_ok.
have real_orig : all (fun a => a \is Num.real) orig.
  by apply/allP=> _ /mapP [p _ ->]; apply: (mxOverP realD).
have real_embed : all (fun a => a \is Num.real) embed.
  by apply/allP=> _ /mapP [p _ ->]; apply/ger0_real/pdist_square_ge0.
have eq_size : size orig = size embed by rw !size_map.
split=> [perfect nonconst|q].
  have eq_flat : embed = orig.
    apply/eq_in_map => p; rw mem_filter => /andP [lt12 _].
    by rw perfect.
  have size_orig : (1 < size orig)%N.
    by rw ltnNge; apply: contra nonconst => le1; apply: constant_short.
  move: pr_ok sr_ok; rw /analyze_embedding_quality -/orig -/embed eq_flat.
  clearbody orig embed.
  rw /pearsonr_ok /spearmanr_ok (negbTE nonconst) eqxx ltnNge size_orig /=.
  case: (pearsonr orig orig) => [[r ->|]|msg] //.
  case: (spearmanr orig orig) => [sr _|msg] //=.
  have -> : [seq p.1 - p.2 | p <- zip orig orig] = [seq 0 | a <- orig].
    by rw zip_diag -map_comp; apply: eq_map => a /=; rw subrr.
  have -> : np_sqrt (np_true_divide (\sum_(x <- [seq 0 | a <- orig]) x ^+ 2)
                                    (\sum_(x <- orig) x ^+ 2)) = Finite 0.
    rw big_map big1; first by move=> a _; rw expr0n.
    rw /np_true_divide ifF ?mul0r /= ?lexx ?sqrtC0 //.
    apply: contraNF nonconst => /eqP /(sumsq_eq0 real_orig) /allP all0.
    have head0 : head 0 orig = 0.
      by case: (orig) all0 => [|c x] //= all0; apply/eqP/all0/mem_head.
    by apply/allP=> a a_in; rw head0 all0.
  have [max_d def_max] : exists max_d : C,
      np_max [seq `|x| | x <- [seq (0 : C) | a <- orig]] = Ok max_d.
    by apply: np_max_nonempty; rw !size_map ltnW.
  rw def_max /=.
  by eexists; split=> /=; rw ?pearson_coefficient_diag.
rw /analyze_embedding_quality -/orig -/embed.
move: pr_ok sr_ok; rw /pearsonr_ok /spearmanr_ok.
case: (pearsonr orig embed) => [pr pr_ok|msg] //=.
case: (spearmanr orig embed) => [sr sr_ok|msg] //=.
case def_max : (np_max _) => [max_d|e] //= [<-].
split=> /=.
- by move=> r eq_r; move: pr_ok; rw eq_r => ->;
     apply: pearson_coefficient_bounds.
- move=> r eq_r; move: sr_ok; rw eq_r => -[rx [ry [real_rx real_ry size_r ->]]].
  exact: pearson_coefficient_bounds.
- exact: np_sqrt_ge0.
- by move=> a; apply: np_mean_float_ge0.
exact: np_max_ge0 def_max.
Qed.

End Quality.

Section ThreePoints.

Local Abbreviation B := exact_backend.

Import Geodesic.

Lemma pdist_three_points (i j : 'I_3) :
  pdist_square three_points i j = `|(i * i)%:R - (j * j)%:R|.
Proof.
rw mxE big_ord1 !mxE -real_normK ?sqrCK //.
by rw rpredB ?realn.
Qed.

Lemma mem_triu_indices n (i j : 'I_n) :
  ((i, j) \in triu_indices n) = (i < j)%N.
Proof.
rw mem_filter /= andb_idr // => _.
by apply/allpairsP; exists (i, j); rw !mem_enum.
Qed.

Lemma constant_eq (C : numClosedFieldType) (x : seq C) (a b : C) :
  constant x -> a \in x -> b \in x -> a = b.
Proof.
by move=> /allP const_x /const_x /eqP -> /const_x /eqP ->.
Qed.

Lemma three_points_not_constant :
  ~~ constant [seq pdist_square three_points p.1 p.2 | p <- triu_indices 3].
Proof.
apply/negP=> /constant_eq eq_all.
pose i0 : 'I_3 := ord0; pose i1 : 'I_3 := lift ord0 ord0.
pose i2 : 'I_3 := ord_max.
have /eqP : pdist_square three_points i0 i1 = pdist_square three_points i0 i2.
  pose f (p : 'I_3 * 'I_3) := pdist_square three_points p.1 p.2.
  apply: eq_all.
    by apply: (@map_f _ _ f _ (i0, i1)); rw mem_triu_indices.
  by apply: (@map_f _ _ f _ (i0, i2)); rw mem_triu_indices.
rw !pdist_three_points /= !sub0r !normrN !normr_nat.
by rw eqr_nat.
Qed.

End ThreePoints.

(** The theorem at three points on a line, at 0, 1 and 4, with their own
    distances, and with the routines over the algebraic numbers. *)
Lemma analyze_embedding_quality_perfect_witness :
  exists q : Geodesic.quality,
    [/\ Geodesic.analyze_embedding_quality (B := exact_backend) three_points
          (Geodesic.pdist_square three_points) = Ok q,
        Geodesic.pearson_correlation q = Finite 1
      & Geodesic.normalized_stress q = Finite 0].
Proof.
have realE : three_points \is a realmx.
  by apply/mxOverP=> i k; rw mxE realn.
have realD : Geodesic.pdist_square three_points \is a realmx.
  by apply/mxOverP=> i j; apply/ger0_real/pdist_square_ge0.
have [perfect _] :=
  analyze_embedding_quality_perfect (B := exact_backend) realE realD
    (exact_pearsonr_ok _ _) (exact_spearmanr_ok _ _).
by apply: perfect => //; apply: three_points_not_constant.
Defined.

(** C9 fails at three coincident points: their distances, all zero, are the
    entries of the zero matrix, and whatever the external routines return
    the analyzer does not return a stress of 0: the stress is 0/0. *)
Lemma analyze_embedding_quality_coincident :
  Geodesic.perfect_embedding (0 : 'M[algC]_(3, 2)) (0 : 'M[algC]_3)
  /\ ~ (exists (B : Backend algC) (q : Geodesic.quality),
          Geodesic.analyze_embedding_quality (B := B)
            (0 : 'M[algC]_(3, 2)) (0 : 'M[algC]_3) = Ok q
          /\ Geodesic.normalized_stress q = Finite 0).
Proof.
split=> [i j _|[B [q []]]].
  rw !mxE big1 ?sqrtC0 // => k _.
  by rw !mxE subrr expr0n.
rw /Geodesic.analyze_embedding_quality.
case: (pearsonr _ _) => [pr|msg] //=; case: (spearmanr _ _) => [sr|msg] //=.
case: (Geodesic.np_max _) => [max_d|e] //= [<-] /=.
have -> : \sum_(x <- [seq (0 : 'M[algC]_3) p.1 p.2
                        | p <- Geodesic.triu_indices 3]) x ^+ 2 = 0.
  by rw big_map big1 // => p _; rw mxE expr0n.
by rw /np_true_divide eqxx.
Qed.

(** * Further properties of the package *)

(** ** What the samplers return (core.random_su, core.random_sun, core.random_sln_real) *)

Section SpecialUnitary.

Context {C : numClosedFieldType} {B : Backend C}.

Import Core.

Lemma unitarymx_diag n (d : 'rV[C]_n) :
  (forall i, `|d 0 i| = 1) -> diag_mx d \is unitarymx.
Proof.
move=> norm_d; apply/unitarymxP.
rw tr_diag_mx map_diag_mx mulmx_diag -diag_const_mx; congr diag_mx.
by apply/rowP=> i; rw !mxE -normCK norm_d expr1n.
Qed.

Lemma norm_det_unitary n (U : 'M[C]_n) : U \is unitarymx -> `|\det U| = 1.
Proof.
move=> /unitarymxP /(congr1 determinant).
rw det_mulmx det_map_mx det_tr det1 -normCK => /eqP.
by rw sqrp_eq1 // => /eqP.
Qed.

(** Dividing a unitary matrix by an [n]-th root of its determinant gives a
    unitary matrix of determinant 1. *)
Lemma unitary_div_root n (U : 'M[C]_n) (r : C) :
  (0 < n)%N -> U \is unitarymx -> r ^+ n = \det U ->
  r^-1 *: U \is unitarymx /\ \det (r^-1 *: U) = 1.
Proof.
move=> n_gt0 unitaryU eq_r.
have norm_r : `|r| = 1.
  apply/eqP; rw -(pexpr_eq1 n_gt0) // -normrX eq_r.
  by rw norm_det_unitary.
have r_neq0 : r != 0 by rw -normr_eq0 norm_r oner_eq0.
split; last by rw detZ -eq_r exprVn mulVf // expf_neq0.
rw -mul_scalar_mx mul_unitarymx //; apply: unitarymx_scalar.
by rw normfV norm_r invr1.
Qed.

(** X1.  For a dimension [n >= 1], when the first factor of [la.qr] is
    unitary, [np.angle] is real, [np.exp] maps the imaginary axis to the
    unit circle and [z ** (1/n)] is an [n]-th root of [z], [random_su(n)]
    returns a unitary matrix of determinant 1, whatever the state of the
    generator. *)
Theorem random_su_special_unitary (n : nat) (s : rng) :
  la_qr_unitary -> np_angle_real -> np_exp_spec -> np_root_spec ->
  (0 < n)%N ->
  exists U : 'M[C]_n,
    [/\ random_su n s = (Ok U, random_su_state n s),
        U \is unitarymx
      & \det U = 1].
Proof.
move=> qr_unitary angle_real exp_unit root_spec n_gt0.
rw /random_su_state /random_su.
case: (np_random_randn _ _ s) => Zr s1; case: (np_random_randn _ _ s1) => Zi s2.
have := qr_unitary _ (Zr + 'i *: Zi); case: (la_qr _) => Q R /= unitaryQ.
case: n n_gt0 Zr Zi Q R unitaryQ => // n n_gt0 Zr Zi Q R unitaryQ.
set D := diag_mx _; set r := np_root _ _.
have unitaryQD : Q *m D \is unitarymx.
  rw mul_unitarymx //; apply: unitarymx_diag => i.
  by rw mxE mulNr -mulrN exp_unit // rpredN.
have [unitaryU detU] := unitary_div_root n_gt0 unitaryQD (root_spec _ _ n_gt0).
by eexists; split.
Qed.

(** X2.  Under the same conditions every matrix that [random_sun(n, k)]
    returns is unitary of determinant 1: the bare matrix for [k = 1], each
    of the [k] members of the list otherwise. *)
Theorem random_sun_special_unitary (n k : nat) (s : rng) :
  la_qr_unitary -> np_angle_real -> np_exp_spec -> np_root_spec ->
  (0 < n)%N ->
  match (random_sun n k s).1 with
  | Ok (Single U) => [/\ k = 1%N, U \is unitarymx & \det U = 1]
  | Ok (Batch Us) =>
      [/\ k <> 1%N, size Us = k
        & forall U, U \in Us -> U \is unitarymx /\ \det U = 1]
  | Raise _ => False
  end.
Proof.
move=> qr_unitary angle_real exp_unit root_spec n_gt0.
have special := random_su_special_unitary _ qr_unitary angle_real exp_unit
                  root_spec n_gt0.
rw /random_sun; case: (k =P 1%N) => [->|k_neq1].
  by have [U [-> unitaryU detU]] := special s.
have [Us [-> sizeUs nthUs]] := random_su_list_Ok k s n_gt0.
split=> // U /(nthP 0) [i]; rw sizeUs => ltik <-.
have := nthUs i ltik; rw /nth_sample.
by have [U' [-> unitaryU' detU']] := special (iter i (random_su_state n) s)
   => -[<-].
Qed.

End SpecialUnitary.

(** ** The real sampler (core.random_sln_real) *)

Section RandomSln.

Context {C : numClosedFieldType} {B : Backend C}.

Import Core.

Lemma np_divide_finite n (A : 'M[C]_n) (y : C) :
  y != 0 ->
  \matrix_(i, j) np_divide (A i j) (Finite y) = finite_mx (y^-1 *: A).
Proof.
move=> y_neq0; apply/matrixP=> i j.
by rw !mxE /= /np_true_divide (negbTE y_neq0) mulrC.
Qed.

(** X3.  For a dimension [n >= 1], with [A] the array drawn: when [det A] is
    positive, or [n = 1] and [det A] is not zero, [random_sln_real(n)]
    returns [A] divided by a number, and the determinant of the result is 1;
    when [det A] is zero, or negative with [n >= 2], it raises nothing and
    returns an array without any finite entry. *)
Theorem random_sln_real_det (n : nat) (s : rng) :
  (0 < n)%N ->
  let A := (np_random_randn n n s).1 in
  (0 < \det A \/ n = 1%N /\ \det A != 0 ->
   exists M : 'M[C]_n,
     [/\ (random_sln_real n s).1 = Ok (finite_mx M),
         exists2 c : C, c != 0 & A = c *: M
       & \det M = 1])
  /\ (\det A = 0 \/ (1 < n)%N /\ \det A < 0 ->
      exists N : 'M[npfloat C]_n,
        (random_sln_real n s).1 = Ok N /\ forall i j, N i j = NonFinite).
Proof.
case: n => // n _ /=; rw /random_sln_real.
case: (np_random_randn _ _ s) => A s1 /=; rw /np_float_root; split.
  move=> det_A.
  have det_neq0 : \det A != 0 by case: det_A => [/lt0r_neq0|[]].
  have [r [-> r_neq0 eq_r]] : exists r : C,
      [/\ (if n.+1 == 1%N then Finite (\det A)
           else if 0 <= \det A then Finite (n.+1.-root (\det A))
           else NonFinite) = Finite r,
          r != 0 & r ^+ n.+1 = \det A].
    case: n A det_A det_neq0 => [|n] A det_A det_neq0 /=.
      by exists (\det A); rw expr1.
    case: det_A => [det_gt0|[]] //.
    exists (n.+2.-root (\det A)); rw (ltW det_gt0) rootCK //.
    by rw rootC_eq0.
  exists (r^-1 *: A); rw np_divide_finite //; split=> //.
    by exists r; rw // scalerA divff // scale1r.
  by rw detZ -eq_r exprVn mulVf // expf_neq0.
case=> [det0|[n_gt1 det_lt0]].
  eexists; split; first by []; move=> i j; rw mxE det0 lexx.
  case: ifP => _ /=; first by rw /np_true_divide eqxx.
  by rw rootC0 /np_true_divide eqxx.
eexists; split; first by []; move=> i j; rw mxE.
rw (gtn_eqF n_gt1); case: ifP => // det_ge0.
by move: (lt_le_trans det_lt0 det_ge0); rw ltxx.
Qed.

End RandomSln.

(** ** The routines with the Cayley transform and the chord meet their contracts *)

Section CircleBackend.

Local Abbreviation B := circle_backend.

Lemma circle_la_eig_spec : la_eig_spec (B := B).
Proof. exact: exact_la_eig_spec. Qed.

Lemma circle_la_qr_unitary : la_qr_unitary (B := B).
Proof. by move=> n Z; apply: unitarymx1. Qed.

Lemma circle_np_angle_spec : np_angle_spec (B := B).
Proof.
split=> [z||z] /=; first exact: normr_real.
  by rw subrr normr0.
by rw !normr_id -[RHS]norm_conjC rmorphB rmorph1.
Qed.

Lemma circle_np_angle_real : np_angle_real (B := B).
Proof. by case: circle_np_angle_spec. Qed.

Lemma circle_np_angle_zero : np_angle_zero (B := B).
Proof. by move=> z _ /= /eqP; rw normr_eq0 subr_eq0 => /eqP. Qed.

Lemma circle_np_exp_spec : np_exp_spec (B := B).
Proof.
move=> t real_t /=; set u := 1 + _.
have real_h : t / 2 \is Num.real by rw rpredM // rpredV realn.
have eq_u : u = 1 + 'i * (t / 2) by rw /u mulrA.
have -> : 1 - 'i * t / 2 = u^*.
  by rw eq_u rmorphD rmorph1 rmorphM /= conjCi (conj_Creal real_h) mulNr mulrA.
have u_neq0 : u != 0.
  apply/eqP=> /(congr1 (fun z => 'Re z)).
  rw eq_u Re_rect ?rpred1 // (Creal_ReP _ _) ?rpred0 //.
  by move/eqP; rw oner_eq0.
by rw normf_div norm_conjC divff // normr_eq0.
Qed.

Lemma circle_np_root_spec : np_root_spec (B := B).
Proof. by move=> n z n_gt0 /=; rw rootCK. Qed.

End CircleBackend.

(** The two theorems in dimension 2, for the generator in state 0 and a
    batch of 3, with the Cayley transform for the exponential. *)
Lemma random_su_special_unitary_witness :
  exists U : 'M[algC]_2,
    [/\ Core.random_su (B := circle_backend) 2 0%N
          = (Ok U, Core.random_su_state (B := circle_backend) 2 0%N),
        U \is unitarymx
      & \det U = 1].
Proof.
exact: (random_su_special_unitary (B := circle_backend) 0%N
          circle_la_qr_unitary circle_np_angle_real circle_np_exp_spec
          circle_np_root_spec (ltn0Sn 1)).
Defined.

Lemma random_sun_special_unitary_witness :
  match (Core.random_sun (B := circle_backend) 2 3 0%N).1 with
  | Ok (Core.Single U) => [/\ 3%N = 1%N, U \is unitarymx & \det U = 1]
  | Ok (Core.Batch Us) =>
      [/\ 3%N <> 1%N, size Us = 3%N
        & forall U, U \in Us -> U \is unitarymx /\ \det U = 1]
  | Raise _ => False
  end.
Proof.
exact: (random_sun_special_unitary (B := circle_backend) 3 0%N
          circle_la_qr_unitary circle_np_angle_real circle_np_exp_spec
          circle_np_root_spec (ltn0Sn 1)).
Defined.

(** The theorem in dimension 1 with the generator in state 1, which draws
    the 1 x 1 array [1]. *)
Lemma random_sln_real_det_witness :
  exists M : 'M[algC]_1,
    [/\ (Core.random_sln_real (B := exact_backend) 1 1%N).1
          = Ok (finite_mx M),
        exists2 c : algC,
          c != 0 & (np_random_randn (Backend := exact_backend) 1 1 1%N).1
                   = c *: M
      & \det M = 1].
Proof.
have [positive _] :=
  random_sln_real_det (B := exact_backend) 1%N (ltn0Sn 0).
by apply: positive; left; rw det_mx11 mxE ltr01.
Defined.

(** ** The logarithm of a unitary matrix and the distance as a metric (core.matrix_log, core.bi_invariant_distance) *)

Section UnitaryLog.

Context {C : numClosedFieldType} {B : Backend C}.

Import Core.

(** A unitary matrix and its spectral decomposition. *)
Lemma unitary_spectral n (X : 'M[C]_n) :
  X \is unitarymx ->
  X = (spectralmx X) ^t* *m diag_mx (spectral_diag X) *m spectralmx X.
Proof.
move=> unitaryX; rw -invmx_unitary ?spectral_unitarymx //.
by apply/orthomx_spectralP/unitary_normal.
Qed.

(** The eigenvalues of a unitary matrix lie on the unit circle. *)
Lemma unitary_diag_norm n (P : 'M[C]_n) (sp : 'rV[C]_n) :
  P \is unitarymx -> P ^t* *m diag_mx sp *m P \is unitarymx ->
  forall i, `|sp 0 i| = 1.
Proof.
move=> unitaryP unitaryX i.
have unitaryD : diag_mx sp \is unitarymx.
  have -> : diag_mx sp = P *m (P ^t* *m diag_mx sp *m P) *m P ^t*.
    by rw !mulmxA (unitarymxP unitaryP) mul1mx -mulmxA (unitarymxP unitaryP)
          mulmx1.
  apply: mul_unitarymx; last by rw trmxC_unitary.
  exact: mul_unitarymx.
move/unitarymxP/matrixP/(_ i i): unitaryD.
rw tr_diag_mx map_diag_mx mulmx_diag !mxE eqxx !mulr1n -normCK => /eqP.
by rw sqrp_eq1 // => /eqP.
Qed.


(** X6.  For unitary [U] and [V], when [la.eig] meets its contract at the
    unitary matrices and [np.angle] is real and vanishes on the unit circle
    at 1 only, the distance is a non-negative real, and it is zero only if
    [U = V]. *)
Theorem bi_invariant_distance_definite n (U V : 'M[C]_n) :
  la_eig_spec -> np_angle_real -> np_angle_zero ->
  U \is unitarymx -> V \is unitarymx ->
  exists d : C,
    [/\ bi_invariant_distance U V = Ok d, 0 <= d & d = 0 -> U = V].
Proof.
move=> eig_spec angle_real angle_zero unitaryU unitaryV.
pose X := U ^t* *m V; pose P := spectralmx X; pose sp := spectral_diag X.
have unitaryX : X \is unitarymx by rw mul_unitarymx ?trmxC_unitary.
have unitaryP : P \is unitarymx := spectral_unitarymx X.
have eqX : X = P ^t* *m diag_mx sp *m P := unitary_spectral unitaryX.
have sum_ge0 : 0 <= \sum_i `|np_angle (sp 0 i)| ^+ 2.
  by apply: sumr_ge0 => i _; rw exprn_ge0.
exists (angle_norm sp); split.
- exact: distance_unitary eqX.
- by rw sqrtC_ge0.
move/eqP; rw sqrtC_eq0 psumr_eq0 => [i _|/allP angle0]; first by rw exprn_ge0.
have sp1 : sp = const_mx 1.
  apply/rowP=> i; rw mxE; apply: angle_zero.
    by apply: (unitary_diag_norm unitaryP); rw -eqX.
  have := angle0 i (mem_index_enum _).
  by rw sqrf_eq0 normr_eq0 => /eqP.
have X1 : X = 1%:M.
  by rw eqX sp1 diag_const_mx mulmx1 mulmx_conjC_unitary.
by rw -[V]mul1mx -(unitarymxP unitaryU) -mulmxA -/X X1 mulmx1.
Qed.

End UnitaryLog.

(** ** The Hermitian logarithm of a positive definite matrix (core.matrix_log with [hermitian=True]) *)

Section PositiveLog.

Context {C : numClosedFieldType} {B : Backend C}.

Import Core.

Lemma np_matmul_finite m n p (A : 'M[C]_(m, n)) (M : 'M[C]_(n, p)) :
  np_matmul (finite_mx A) (finite_mx M) = finite_mx (A *m M).
Proof.
apply/matrixP=> i j; rw !mxE.
rw (big_morph Finite (id1 := Finite 0) (op1 := np_add)) //.
by apply: eq_bigr => k _; rw !mxE.
Qed.

(** The eigenvalues [la.eigh] returns are eigenvalues. *)
Lemma eigh_ok_returned n (A : 'M[C]_n) wV (i : 'I_n) :
  eigh_ok A wV -> eigenvalue A (wV.1 0 i).
Proof.
case: wV => w V [/= unitaryV eqAV].
have eqVA : V ^t* *m A = diag_mx w *m V ^t*.
  rw -[LHS](mulmxtVK _ unitaryV) -[_ *m A *m V]mulmxA eqAV mulmxA.
  by rw (mulmx_conjC_unitary unitaryV) mul1mx.
apply/eigenvalueP; exists (row i (V ^t*)).
  by rw -row_mul eqVA row_mul row_diag_mx -scalemxAl -rowE.
apply/eqP=> row0.
have /matrixP /(_ i i) := mulmx_conjC_unitary unitaryV.
rw !mxE eqxx big1 => [k _|/eqP]; last by rw eq_sym oner_eq0.
by have /rowP /(_ k) := row0; rw !mxE => ->; rw mul0r.
Qed.

Lemma np_diag_log n (w : 'rV[C]_n) :
  (forall i, 0 < w 0 i) ->
  np_diag (map_mx np_log w) = finite_mx (diag_mx (map_mx ln w)).
Proof.
move=> w_gt0; apply/matrixP=> i j; rw !mxE /np_log w_gt0.
by case: (i == j); rw ?mulr1n ?mulr0n.
Qed.

(** X5.  When [la.eigh] meets its contract at [U] and every eigenvalue of
    [U] is positive, [matrix_log] with [hermitian=True] returns a matrix
    without NaN or infinite entry: the matrix [V diag(ln w) V^*], for the
    eigenvalues [w] and the eigenvectors [V] that [la.eigh] returns. *)
Theorem matrix_log_hermitian_positive n (U : 'M[C]_n) :
  eigh_ok U (la_eigh U) -> (forall a, eigenvalue U a -> 0 < a) ->
  let: (w, V) := la_eigh U in
  matrix_log U true = Ok (finite_mx (V *m diag_mx (map_mx ln w) *m V ^t*)).
Proof.
move=> ok positive; rw /matrix_log.
have w_gt0 i : 0 < (la_eigh U).1 0 i.
  exact/positive/eigh_ok_returned.
case: (la_eigh U) w_gt0 {ok} => w V /= w_gt0.
by rw np_diag_log // !np_matmul_finite.
Qed.

End PositiveLog.


Lemma bi_invariant_distance_definite_witness :
  exists d : algC,
    [/\ Core.bi_invariant_distance (B := circle_backend)
          (1%:M : 'M_2) 'i%:M = Ok d,
        0 <= d
      & d = 0 -> (1%:M : 'M[algC]_2) = 'i%:M].
Proof.
apply: bi_invariant_distance_definite.
- exact: circle_la_eig_spec.
- exact: circle_np_angle_real.
- exact: circle_np_angle_zero.
- exact: unitarymx1.
exact: unitarymx_i.
Defined.

Lemma matrix_log_hermitian_positive_witness :
  let: (w, V) := la_eigh (Backend := exact_backend) (1%:M : 'M_2) in
  Core.matrix_log (B := exact_backend) (1%:M : 'M_2) true
    = Ok (finite_mx (V *m diag_mx (map_mx (ln (Backend := exact_backend)) w)
                     *m V ^t*)).
Proof.
apply: (matrix_log_hermitian_positive (B := exact_backend)).
  by apply: exact_eigh_ok; apply/unitary_normal/unitarymx1.
move=> a /eigenvalueP [v]; rw mulmx1 => eq_v v_neq0.
suff -> : a = 1 by rw ltr01.
have /rV0Pn [i vi_neq0] := v_neq0.
move/rowP/(_ i): eq_v; rw mxE => /eqP.
by rw -{1}[v 0 i]mul1r (inj_eq (mulIf vi_neq0)) eq_sym => /eqP.
Defined.

(** ** The positive factor as a square root (core.polar_decomposition, cartan.polar_decomposition) *)

Section PolarSqrt.

Context {C : numClosedFieldType} {B : Backend C}.

Lemma diag_real_conj n (d : 'rV[C]_n) :
  (forall i, 0 <= d 0 i) -> (diag_mx d) ^t* = diag_mx d.
Proof.
move=> d_ge0; rw tr_diag_mx map_diag_mx; congr diag_mx.
by apply/rowP=> i; rw mxE; apply: conj_Creal; apply: ger0_real.
Qed.

(** X7.  When [la.svd] returns a singular value decomposition of [A], the
    second factor [P] of [polar_decomposition] (in [core] and in [cartan]
    alike) is Hermitian and its square is [A^* A]; and when [A] is unitary
    the factors are [A] itself and the identity. *)
Theorem polar_decomposition_sqrt n (A : 'M[C]_n) :
  svd_ok A (la_svd A) ->
  let: (U, P) := Core.polar_decomposition A in
  [/\ Cartan.polar_decomposition A = (U, P),
      P ^t* = P,
      P *m P = A ^t* *m A
    & A \is unitarymx -> U = A /\ P = 1%:M].
Proof.
rw /Cartan.polar_decomposition /Core.polar_decomposition.
case: (la_svd A) => [[U S_] Vh] [/= unitaryU unitaryVh S_ge0 eqA].
have eq_conj := diag_real_conj S_ge0.
have eq_sq : A ^t* *m A = Vh ^t* *m (diag_mx S_ *m diag_mx S_) *m Vh.
  rw eqA !trmx_mul !map_mxM eq_conj -!mulmxA; congr (_ *m (_ *m _)).
  by rw !mulmxA (mulmx_conjC_unitary unitaryU) mul1mx.
split=> //.
- by rw !trmx_mul !map_mxM trmxCK eq_conj mulmxA.
- by rw eq_sq !mulmxA mulmxtVK.
move=> unitaryA.
have sq1 : diag_mx S_ *m diag_mx S_ = 1%:M.
  have := mulmx_conjC_unitary unitaryA; rw eq_sq => eq1.
  have -> : diag_mx S_ *m diag_mx S_
            = Vh *m (Vh ^t* *m (diag_mx S_ *m diag_mx S_) *m Vh) *m Vh ^t*.
    by rw !mulmxA (unitarymxP unitaryVh) mul1mx -mulmxA
          (unitarymxP unitaryVh) mulmx1.
  by rw eq1 mulmx1 (unitarymxP unitaryVh).
have S1 : diag_mx S_ = 1%:M.
  rw -diag_const_mx; congr diag_mx; apply/rowP=> i; rw mxE.
  move/matrixP/(_ i i): sq1; rw mulmx_diag !mxE eqxx !mulr1n -expr2 => /eqP.
  by rw sqrp_eq1 // => /eqP.
by rw S1 mulmx1 mulmx_conjC_unitary // eqA S1 mulmx1.
Qed.

End PolarSqrt.

(** ** The factors of the Cartan decomposition (cartan.cartan_projection with [return_decomposition=True]) *)

Section CartanDecomposition.

Context {C : numClosedFieldType} {B : Backend C}.

Import Cartan.

(** The indices sorted by [np.argsort] and reversed: each index once, and
    the entries read in that order are the entries sorted in descending
    order. *)
Lemma rev_argsort n (v : 'rV[C]_n) :
  let perm := rev (np_argsort v) in
  [/\ size perm = n, uniq perm
    & [seq v 0 i | i <- perm] = rev (np_sort (tolist v))].
Proof.
split.
- by rw size_rev size_sort size_enum_ord.
- by rw rev_uniq sort_uniq enum_uniq.
by rw map_rev /np_sort /tolist sort_map.
Qed.

Lemma nth_rev_argsort_inj n (v : 'rV[C]_n) :
  injective (fun j : 'I_n => nth j (rev (np_argsort v)) j).
Proof.
have [size_p uniq_p _] := rev_argsort v.
move=> i j /eqP; rw (set_nth_default i j) ?size_p //.
by rw nth_uniq ?size_p // => /eqP /val_inj.
Qed.


End CartanDecomposition.

(** The two theorems at [i] times the identity, in dimension 2, with the
    routines over the algebraic numbers. *)
Lemma polar_decomposition_sqrt_witness :
  let: (U, P) :=
    Core.polar_decomposition (B := exact_backend) ('i%:M : 'M_2) in
  [/\ Cartan.polar_decomposition (B := exact_backend) ('i%:M : 'M_2) = (U, P),
      P ^t* = P,
      P *m P = ('i%:M : 'M_2) ^t* *m 'i%:M
    & ('i%:M : 'M[algC]_2) \is unitarymx -> U = 'i%:M /\ P = 1%:M].
Proof.
exact: (polar_decomposition_sqrt (B := exact_backend)
          (exact_svd_ok (unitarymx_i 2))).
Defined.


(** ** Finite Cartan coordinates (cartan.cartan_projection) *)

Section CartanFinite.

Context {C : numClosedFieldType} {B : Backend C}.

Import Cartan.

(** A matrix is invertible exactly when its singular values are positive. *)
Lemma svd_ok_unitmx n (g : 'M[C]_n) USV :
  svd_ok g USV -> (g \in unitmx) = all (fun x => 0 < x) (tolist USV.1.2).
Proof.
case: USV => [[U S_] Vh] [/= unitaryU unitaryVh S_ge0 ->].
rw !unitmx_mul (unitarymx_unit unitaryU) (unitarymx_unit unitaryVh) andbT /=.
rw unitmxE unitfE det_diag.
apply/prodf_neq0/allP => [S_neq0 _ /mapP [i _ ->]|S_gt0 i _].
  by rw lt_def S_ge0 S_neq0.
by apply/lt0r_neq0/S_gt0/mapP; exists i; rw ?mem_enum.
Qed.


End CartanFinite.


(** ** The Iwasawa factors (cartan.iwasawa_decomposition) *)

Section Iwasawa.

Context {C : numClosedFieldType} {B : Backend C}.

Import Cartan.

(** A matrix is invertible exactly when the triangular factor of its QR
    decomposition has no zero on its diagonal. *)
Lemma qr_ok_unitmx n (A : 'M[C]_n) QR :
  qr_ok A QR -> (A \in unitmx) = [forall i, QR.2 i i != 0].
Proof.
case: QR => Q R [/= unitaryQ upperR ->].
have trigR : is_trig_mx R^T.
  by apply/is_trig_mxP=> i j ltij; rw mxE upperR.
rw unitmx_mul (unitarymx_unit unitaryQ) /= unitmxE unitfE -det_tr.
rw (det_trig trigR); apply/prodf_neq0/forallP => [R_neq0 i|R_neq0 i _].
  by have := R_neq0 i isT; rw mxE.
by rw mxE.
Qed.


End Iwasawa.


(** ** The basis of the Cartan subalgebra (cartan.cartan_subalgebra_basis) *)

Section CartanBasis.

Context {C : numClosedFieldType}.

Import Geodesic Cartan.

(** A loop that appends one value per pass. *)
Lemma for_rcons (A : eqType) (S : Type) (f : A -> S) (xs : seq A)
    (st : seq S) (body : seq S -> A -> result (seq S)) :
  (forall st x, x \in xs -> body st x = Ok (rcons st (f x))) ->
  for_ xs st body = Ok (st ++ [seq f x | x <- xs]).
Proof.
elim: xs st => [|x xs IH] st body_ok /=; first by rw cats0.
rw body_ok ?mem_head //= IH ?cat_rcons // => st' y y_in.
by rw body_ok // in_cons y_in orbT.
Qed.

(** The array of one pass of the loop: 1 at [(i, i)], -1 at
    [(i+1, i+1)], zero elsewhere. *)
Lemma cartan_basis_pass (n i : nat) :
  (i.+1 < n)%N ->
  let H : seq (seq C) :=
    upd (upd (np_zeros n n) i i 1) i.+1 i.+1 (-1) in
  [/\ (H1 <- setitem2 (np_zeros n n) i i 1 ;;
       setitem2 H1 i.+1 i.+1 (-1)) = Ok H,
      square n H
    & forall a b, ent H a b =
        if a == b then
          if a == i then 1 else if a == i.+1 then -1 else 0
        else 0].
Proof.
move=> lt_i1; have lt_i : (i < n)%N := ltnW lt_i1.
have sq0 := square_zeros (C := C) n.
have sq1 := square_upd 1 sq0 lt_i lt_i.
split.
- by rw (setitem2_upd _ sq0) //= (setitem2_upd _ sq1).
- exact: square_upd.
move=> a b; rw !ent_upd ent_zeros.
have [<-|neq_ab] := eqVneq a b.
  rw !andbb; case: (a =P i) => [->|_] //.
  by rw ltn_eqF.
have and_false (k : nat) : (a == k) && (b == k) = false.
  apply/negP=> /andP [/eqP eq_a /eqP eq_b].
  by move/eqP: neq_ab; rw eq_a eq_b.
by rw !and_false.
Qed.

(** The loop of the type "A". *)
Lemma cartan_basis_type_A (rank : nat) :
  exists basis : seq (seq (seq C)),
    [/\ cartan_subalgebra_basis "A" rank = Returned basis,
        size basis = rank
      & forall i, (i < rank)%N ->
          let H := nth [::] basis i in
          square (rank + 1) H
          /\ forall a b, ent H a b =
               if a == b then
                 if a == i then 1 else if a == i.+1 then -1 else 0
               else 0].
Proof.
pose H (i : nat) : seq (seq C) :=
  upd (upd (np_zeros (rank + 1) (rank + 1)) i i 1) i.+1 i.+1 (-1).
have in_range i : i \in range 0 rank -> (i.+1 < rank + 1)%N.
  by rw /range mem_iota subn0 add0n addn1.
have pass basis i : i \in range 0 rank ->
    (H0 <- setitem2 (np_zeros (rank + 1) (rank + 1)) i i 1 ;;
     H1 <- setitem2 H0 i.+1 i.+1 (-1) ;;
     Ok (rcons basis H1)) = Ok (rcons basis (H i)).
  move=> /in_range lt_i.
  by have [/= eq_H _ _] := cartan_basis_pass lt_i; move: eq_H;
     case: (setitem2 _ i i 1) => //= H1 ->.
exists [seq H i | i <- range 0 rank].
rw /cartan_subalgebra_basis /= (for_rcons [::] pass) /=.
split=> //; first by rw size_map size_iota subn0.
move=> i lt_i; rw (nth_map 0%N) ?size_iota ?subn0 // nth_iota ?subn0 // add0n.
have [|_ sq_H ent_H] := @cartan_basis_pass (rank + 1) i; last by [].
by rw addn1.
Qed.

(** X11.  [cartan_subalgebra_basis] returns for the type "A" only, and then
    [rank] arrays of [rank + 1] rows and columns, the [i]-th with 1 at [(i,
    i)], -1 at [(i+1, i+1)] and zero elsewhere; it raises
    [NotImplementedError] for the type "B" and the [ValueError] that names
    the type for any other, and no exception besides. *)
Theorem cartan_subalgebra_basis_outcome (lie_type : string) (rank : nat) :
  match cartan_subalgebra_basis (C := C) lie_type rank with
  | Returned basis =>
      [/\ lie_type = "A"%string, size basis = rank
        & forall i, (i < rank)%N ->
            let H := nth [::] basis i in
            square (rank + 1) H
            /\ forall a b, ent H a b =
                 if a == b then
                   if a == i then 1 else if a == i.+1 then -1 else 0
                 else 0]
  | NotImplementedError msg =>
      lie_type = "B"%string /\ msg = "Type B not yet implemented"%string
  | Raised e =>
      [/\ e = ValueError ("Unknown Lie type: " ++ lie_type),
          lie_type <> "A"%string & lie_type <> "B"%string]
  end.
Proof.
case: (String.eqb_spec lie_type "A") => [->|not_A].
  by have [basis [-> size_b ent_b]] := cartan_basis_type_A rank.
rw /cartan_subalgebra_basis; move/String.eqb_spec/negbTE: (not_A) => ->.
by case: (String.eqb_spec lie_type "B") => [->|not_B].
Qed.

(** The sum over [k < r] of [c k] times the diagonal entry [(a, a)] of the
    [k]-th array. *)
Lemma cartan_basis_diag_sum (c : nat -> C) (r a : nat) :
  \sum_(0 <= k < r)
     c k * (if a == k then 1 else if a == k.+1 then -1 else 0)
  = (if (a < r)%N then c a else 0)
    - (if a is a'.+1 then if (a' < r)%N then c a' else 0 else 0).
Proof.
elim: r => [|r IH]; first by rw big_geq //; case: a => [|a]; rw subr0.
rw big_nat_recr //= IH {IH} !ltnS [(a <= r)%N]leq_eqVlt.
case: a => [|a] /=.
  by case: r => [|r] /=; rw ?mulr1 ?mulr0 ?subr0 ?add0r ?addr0.
rw eqSS ltnS [(a <= r)%N]leq_eqVlt.
have [<-|neq_a1] /= := eqVneq a.+1 r.
  by rw ltnn ltnSn ltn_eqF //= mulr1 sub0r addrC.
have [->|neq_a] /= := eqVneq a r; last by rw mulr0 addr0.
by rw ltnn ltnNge leqnSn /= subrr add0r sub0r mulrN1.
Qed.

(** X12.  A linear combination of the arrays of the type "A" determines its
    coefficients: the coefficient of the [i]-th array is the sum of the
    diagonal entries [(a, a)], [a <= i], of the combination. The arrays are
    thus linearly independent. *)
Theorem cartan_subalgebra_basis_coordinates (rank : nat)
    (basis : seq (seq (seq C))) (c : nat -> C) (i : nat) :
  cartan_subalgebra_basis "A" rank = Returned basis -> (i < rank)%N ->
  \sum_(0 <= a < i.+1)
     \sum_(0 <= k < rank) c k * ent (nth [::] basis k) a a = c i.
Proof.
have [basis' [-> _ ent_b]] := cartan_basis_type_A rank => -[<-] lt_i.
pose f (a : nat) : C := if a is a'.+1 then c a' else 0.
rw -[RHS]/(f i.+1) -[RHS]subr0 -[0]/(f 0%N) -telescope_sumr //.
apply: eq_big_nat => a /andP [_]; rw ltnS => le_ai.
have lt_a : (a < rank)%N := leq_ltn_trans le_ai lt_i.
have -> : \sum_(0 <= k < rank) c k * ent (nth [::] basis' k) a a
          = \sum_(0 <= k < rank)
               c k * (if a == k then 1 else if a == k.+1 then -1 else 0).
  apply: eq_big_nat => k /andP [_ lt_k].
  by have [_ ->] := ent_b k lt_k; rw eqxx.
rw cartan_basis_diag_sum lt_a /f.
by case: a le_ai lt_a => [|a] // _ /ltnW ->.
Qed.

End CartanBasis.

(** The theorem at rank 2, for the combination with coefficients 1 and 2
    and the second array. *)
Lemma cartan_subalgebra_basis_coordinates_witness :
  \sum_(0 <= a < 2)
     \sum_(0 <= k < 2)
        k.+1%:R * Geodesic.ent
                    (nth [::] [:: [:: [:: 1; 0; 0]; [:: 0; -1; 0]; [:: 0; 0; 0]];
                                  [:: [:: 0; 0; 0]; [:: 0; 1; 0]; [:: 0; 0; -1]]]
                         k) a a
  = (2 : algC).
Proof.
exact: (@cartan_subalgebra_basis_coordinates algC 2 _ (fun k => k.+1%:R) 1
          (erefl _) (ltnSn 1)).
Defined.

(** ** The alcove coordinates in any dimension (weyl.su3_alcove_coords, weyl.sun_alcove_coords, weyl.weyl_chamber_projection) *)

Section AlcoveShape.

Context {C : numClosedFieldType} {B : Backend C}.

Import Weyl.

(** X13.  [su3_alcove_coords] reads the first three angles: on a matrix of
    dimension 1 or 2 it raises [IndexError], and in dimension 3 or more it
    returns two coordinates, the opposites of the first two coordinates that
    [sun_alcove_coords] returns. *)
Theorem su3_alcove_coords_dimension n (U : 'M[C]_n) :
  if (0 < n < 3)%N then su3_alcove_coords U = Raise IndexError
  else if (2 < n)%N then
    exists e1 e2 : C,
      su3_alcove_coords U = Ok [:: e1; e2]
      /\ take 2 (sun_alcove_coords U) = [:: - e1; - e2]
  else True.
Proof.
rw /su3_alcove_coords /sun_alcove_coords.
move: (size_sorted_angles (B := B) U).
case: (sorted_angles (B := B) U) => [|a0 [|a1 [|a2 s]]] /= <- //.
by exists (a0 - a1), (a1 - a2); rw take0 !opprB.
Qed.

(** The centred angles are real and in descending order. *)
Lemma sorted_angles_sorted n (U : 'M[C]_n) :
  np_angle_real -> sorted >=%O (sorted_angles U).
Proof.
move=> angle_real; rw /sorted_angles; case: (la_eig U) => w V.
rw /alcove_angles rev_sorted /np_sort.
set angles := [seq np_angle z | z <- tolist w]; set mean := np_mean angles.
have real_mean : mean \is Num.real.
  by apply: np_mean_real; apply/allP=> _ /mapP [z _ ->].
apply: (@sort_sorted_in _ (fun x : C => x \is Num.real)).
  by move=> x y real_x real_y; apply: real_leVge.
apply/allP=> _ /mapP [a /mapP [z _ ->] ->].
by rw -[_ \in _]/(_ \is Num.real) rpredB.
Qed.

Lemma np_diff_sorted (s : seq C) :
  sorted >=%O s -> all (fun e => e <= 0) (np_diff s).
Proof.
case: s => [|x s] //=; elim: s x => [|y s IH] x //= /andP [le_yx path_s].
by rw subr_le0 le_yx IH.
Qed.

(** X14.  When [np.angle] is real, [sun_alcove_coords] returns [n - 1]
    coordinates on a matrix of dimension [n], none of them positive, and the
    coordinates that [su3_alcove_coords] returns are not negative. *)
Theorem alcove_coords_sign n (U : 'M[C]_n) :
  np_angle_real ->
  [/\ size (sun_alcove_coords U) = n.-1,
      all (fun e => e <= 0) (sun_alcove_coords U)
    & forall es, su3_alcove_coords U = Ok es -> all (fun e => 0 <= e) es].
Proof.
move=> angle_real; have sorted_U := sorted_angles_sorted U angle_real.
split.
- rw /sun_alcove_coords -[in RHS](size_sorted_angles (B := B) U).
  by case: (sorted_angles (B := B) U) => [|a s] //=; rw size_pairmap.
- exact: np_diff_sorted.
move=> es; rw /su3_alcove_coords.
case: (sorted_angles (B := B) U) sorted_U => [|a0 [|a1 [|a2 s]]] //=.
by case/and3P=> le10 le21 _ [<-] /=; rw !subr_ge0 le10 le21.
Qed.

End AlcoveShape.

(** ** The centre of the group (weyl.su3_alcove_coords, weyl.sun_alcove_coords) *)

Section AlcoveCentre.

Context {C : numClosedFieldType} {B : Backend C}.

Import Weyl.

(** The eigenvalues [la.eig] returns for a scalar matrix. *)
Lemma eig_ok_scalar n (c : C) wV (i : 'I_n) :
  eig_ok (c%:M : 'M_n) wV -> wV.1 0 i = c.
Proof.
case: wV => w V [/= unitV]; rw -scalar_mxC => /(canRL (mulKmx unitV)).
rw mulmxA mulVmx // mul1mx => /matrixP /(_ i i).
by rw !mxE eqxx !mulr1n.
Qed.

Lemma alcove_angles_const (k : nat) (c : C) :
  alcove_angles (nseq k c) = nseq k 0.
Proof.
rw /alcove_angles map_nseq; set a := np_angle c.
have -> : [seq x - np_mean (nseq k a) | x <- nseq k a] = nseq k 0.
  case: k => [|k] //; rw map_nseq; congr (nseq _ _).
  by rw /np_mean big_nseq iter_addr_0 size_nseq -mulr_natr mulfK ?subrr
        ?pnatr_eq0.
have /all_pred1P -> : all (pred1 (0 : C)) (rev (np_sort (nseq k 0))).
  by rw all_rev /np_sort all_sort all_nseq /= eqxx orbT.
by rw size_rev /np_sort size_sort size_nseq.
Qed.

Lemma np_diff_zeros (k : nat) : np_diff (nseq k (0 : C)) = nseq k.-1 0.
Proof.
case: k => [|k] //=; elim: k => [|k IH] //=.
by rw subrr IH.
Qed.

(** X15.  When [la.eig] returns an eigendecomposition of the scalar matrix
    [c I] (the identity, the centre of the group), its angles are all equal
    and the coordinates are all zero: [sun_alcove_coords] returns [n - 1]
    zeros, and [su3_alcove_coords] returns two zeros in dimension 3 or more. *)
Theorem alcove_coords_scalar n (c : C) :
  eig_ok (c%:M : 'M[C]_n) (la_eig c%:M) ->
  sun_alcove_coords (c%:M : 'M[C]_n) = nseq n.-1 0
  /\ ((2 < n)%N -> su3_alcove_coords (c%:M : 'M[C]_n) = Ok [:: 0; 0]).
Proof.
move=> ok.
have angles0 : sorted_angles (B := B) (c%:M : 'M[C]_n) = nseq n 0.
  rw /sorted_angles; case: (la_eig _) (fun i => eig_ok_scalar i ok) => w V /=.
  move=> w_c; have -> : tolist w = nseq n c.
    apply: (@eq_from_nth _ 0); first by rw size_tolist size_nseq.
    move=> i; rw size_tolist => lt_i; rw nth_nseq lt_i.
    by rw /tolist (nth_map (Ordinal lt_i)) ?size_enum_ord // w_c.
  exact: alcove_angles_const.
rw /sun_alcove_coords /su3_alcove_coords angles0 np_diff_zeros; split=> //.
by case: n {ok angles0} => [|[|[|n]]] //= _; rw subrr.
Qed.

End AlcoveCentre.

(** The two theorems at the identity of dimension 3, with the routines over
    the algebraic numbers. *)
Lemma alcove_coords_sign_witness :
  [/\ size (Weyl.sun_alcove_coords (B := exact_backend) (1%:M : 'M_3)) = 2%N,
      all (fun e => e <= 0)
          (Weyl.sun_alcove_coords (B := exact_backend) (1%:M : 'M_3))
    & forall es,
        Weyl.su3_alcove_coords (B := exact_backend) (1%:M : 'M_3) = Ok es ->
        all (fun e => 0 <= e) es].
Proof.
apply: (alcove_coords_sign (B := exact_backend) (1%:M : 'M_3)).
by case: exact_np_angle_spec.
Defined.

Lemma alcove_coords_scalar_witness :
  Weyl.sun_alcove_coords (B := exact_backend) (1%:M : 'M_3) = [:: 0; 0]
  /\ ((2 < 3)%N ->
      Weyl.su3_alcove_coords (B := exact_backend) (1%:M : 'M_3)
        = Ok [:: 0; 0]).
Proof.
apply: (alcove_coords_scalar (B := exact_backend) (n := 3) (c := 1)).
exact/exact_la_eig_spec/unitarymx1.
Defined.

(** ** The chamber projection (weyl.weyl_chamber_projection) *)

Section Chamber.

Context {C : numClosedFieldType} {B : Backend C}.

Import Weyl.

Lemma sorted_angles_conj n (U V : 'M[C]_n) :
  la_eig_spec -> np_angle_real -> U \is unitarymx -> V \is unitarymx ->
  sorted_angles (V *m U *m V ^t*) = sorted_angles U.
Proof.
move=> eig_spec angle_real unitaryU unitaryV.
have unitaryVUV : V *m U *m V ^t* \is unitarymx.
  by rw !mul_unitarymx ?trmxC_unitary.
have := eig_spec _ _ unitaryU; have := eig_spec _ _ unitaryVUV.
rw /sorted_angles; case: (la_eig _) => w' P'; case: (la_eig U) => w P.
move=> ok' ok; apply: alcove_angles_perm => //.
apply: (eig_ok_perm (P := V) _ _ ok' ok); first exact: unitarymx_unit.
by rw mulmxKtV.
Qed.


End Chamber.


(** ** Metrics that may raise (geodesic.compute_distance_matrix) *)

Section ForLoops.

Variables (A S : Type).

Lemma for_cat (xs ys : seq A) (st : S) (body : S -> A -> result S) :
  for_ (xs ++ ys) st body = (st' <- for_ xs st body ;; for_ ys st' body).
Proof.
elim: xs st => [|x xs IH] st //=.
by case: (body st x) => [st'|e] //=.
Qed.

End ForLoops.

Lemma eq_in_for (A : eqType) (S : Type) (xs : seq A) (st : S)
    (body body' : S -> A -> result S) :
  (forall st x, x \in xs -> body st x = body' st x) ->
  for_ xs st body = for_ xs st body'.
Proof.
elim: xs st => [|x xs IH] st eq_body //=.
rw eq_body ?mem_head //; case: (body' st x) => [st'|e] //=.
by apply: IH => st'' y y_in; rw eq_body // in_cons y_in orbT.
Qed.

Lemma range_split (a j b : nat) :
  (a <= j < b)%N -> range a b = range a j ++ j :: range j.+1 b.
Proof.
case/andP=> le_aj lt_jb; rw /range.
have -> : (b - a = (j - a) + (b - j))%N.
  by rw addnBAC // subnKC // ltnW.
by rw iotaD subnKC // -(subnSK lt_jb).
Qed.

Section MetricRaises.

Context {C : numClosedFieldType} {B : Backend C} {m : nat}.

Import Geodesic.

Variables (elements : seq 'M[C]_m) (g : 'M[C]_m -> 'M[C]_m -> result C).

Let k := size elements.
Let e (i : nat) : 'M[C]_m := nth 0 elements i.

(** The values of the metric where it returns. *)
Let f (U V : 'M[C]_m) : C := if g U V is Ok d then d else 0.

Lemma dm_body_returning i j st :
  (i < k)%N -> (j < k)%N -> (exists d, g (e i) (e j) = Ok d) ->
  dm_body elements g i st j = dm_body elements (returning f) i st j.
Proof.
move=> lt_i lt_j [d eq_d]; rw /dm_body !(@getitem_nth _ 0) //=.
by rw /returning /f -/(e i) -/(e j) eq_d.
Qed.

Lemma dm_inv0 :
  dm_inv elements f 0 [::] (DmState (np_zeros k k) [::]).
Proof.
split=> //=; first exact: square_zeros.
by move=> a b; rw ent_zeros ?in_nil.
Qed.

(** The metric is called at the pairs [(a, b)] with [a < b], row by row;
    [(a, b)] comes before [(i, j)] when [a < i], or [a = i] and [b < j]. *)
Lemma dm_raises i j ex :
  (i < j < k)%N -> g (e i) (e j) = Raise ex ->
  (forall a b, (a < b < k)%N -> (a < i)%N || (a == i) && (b < j)%N ->
     exists d, g (e a) (e b) = Ok d) ->
  compute_distance_matrix_traced elements (Some g) = Raise ex.
Proof.
case/andP=> lt_ij lt_jk raises returns.
have lt_ik : (i < k)%N := ltn_trans lt_ij lt_jk.
rw /compute_distance_matrix_traced -/k.
rw (@range_split 0 i k) // for_cat.
have -> : for_ (range 0 i) (DmState (np_zeros k k) [::])
            (fun st a => for_ (range a.+1 k) st (dm_body elements g a))
        = for_ (range 0 i) (DmState (np_zeros k k) [::])
            (fun st a =>
               for_ (range a.+1 k) st (dm_body elements (returning f) a)).
  apply: eq_in_for => st a; rw /range mem_iota subn0 add0n /= => lt_ai.
  have lt_ak : (a < k)%N := ltn_trans lt_ai lt_ik.
  apply: eq_in_for => {}st b; rw mem_iota (subnKC lt_ak) => /andP [lt_ab lt_bk].
  apply: dm_body_returning => //.
  by apply: returns; rw ?lt_ab ?lt_ai.
have [|st1 -> inv1] := dm_outer_inv (rows := range 0 i) dm_inv0.
  apply/allP=> a; rw /range mem_iota subn0 add0n /= => lt_ai.
  exact: ltn_trans lt_ai lt_ik.
rw /= -/k.
rw (@range_split i.+1 j k) ?lt_ij // for_cat.
have -> : for_ (range i.+1 j) st1 (dm_body elements g i)
        = for_ (range i.+1 j) st1 (dm_body elements (returning f) i).
  apply: eq_in_for => st b; rw /range mem_iota subnKC // => /andP [lt_ib lt_bj].
  have lt_bk : (b < k)%N := ltn_trans lt_bj lt_jk.
  apply: dm_body_returning => //.
  by apply: returns; rw ?lt_ib ?lt_bk ?eqxx ?lt_bj ?orbT.
have [|st2 -> inv2] := dm_inner_inv (i := i) (js := range i.+1 j) inv1.
  apply/allP=> b; rw /range mem_iota subnKC // => /andP [lt_ib lt_bj].
  by rw lt_ib (ltn_trans lt_bj lt_jk).
by rw /= /dm_body !(@getitem_nth _ 0) //= -/(e i) -/(e j) raises.
Qed.

End MetricRaises.

Section DistanceMatrixOutcome.

Context {C : numClosedFieldType} {B : Backend C} {m : nat}.

Import Geodesic.

(** X17.  When the metric raises at the elements [i] and [j], [i < j], and
    returns at every pair that comes before [(i, j)] in the order of the
    loops (the pairs [(a, b)], [a < b], with [a < i], or [a = i] and [b <
    j]), [compute_distance_matrix] raises the same exception, and returns no
    array. *)
Theorem compute_distance_matrix_raises (elements : seq 'M[C]_m)
    (g : 'M[C]_m -> 'M[C]_m -> result C) (i j : nat) (ex : exn) :
  let k := size elements in
  let e := nth 0 elements in
  (i < j < k)%N -> g (e i) (e j) = Raise ex ->
  (forall a b, (a < b < k)%N -> (a < i)%N || (a == i) && (b < j)%N ->
     exists d, g (e a) (e b) = Ok d) ->
  compute_distance_matrix elements (Some g) = Raise ex.
Proof.
move=> k e lt_ij raises returns; rw /compute_distance_matrix.
by rw (dm_raises lt_ij raises returns).
Qed.

(** A metric that returns at the pairs of elements builds the array of the
    values it returns there. *)
Lemma dm_returns (elements : seq 'M[C]_m)
    (g : 'M[C]_m -> 'M[C]_m -> result C) (f : 'M[C]_m -> 'M[C]_m -> C) :
  let k := size elements in
  let e := nth 0 elements in
  (forall i j, (i < j < k)%N -> g (e i) (e j) = Ok (f (e i) (e j))) ->
  exists D : seq (seq C),
    [/\ compute_distance_matrix elements (Some g) = Ok D,
        square k D
      & forall a b, ent D a b =
          if (a < b < k)%N then f (e a) (e b)
          else if (b < a < k)%N then f (e b) (e a) else 0].
Proof.
move=> k e returns; rw /compute_distance_matrix /compute_distance_matrix_traced.
have -> : for_ (range 0 (size elements)) (DmState (np_zeros k k) [::])
            (fun st a =>
               for_ (range a.+1 (size elements)) st (dm_body elements g a))
        = for_ (range 0 k) (DmState (np_zeros k k) [::])
            (fun st a =>
               for_ (range a.+1 k) st (dm_body elements (returning f) a)).
  apply: eq_in_for => st a; rw /range mem_iota subn0 add0n /= => lt_ak.
  apply: eq_in_for => {}st b; rw mem_iota (subnKC lt_ak) => /andP [lt_ab lt_bk].
  rw /dm_body !(@getitem_nth _ 0) //=.
  by rw -/(e a) -/(e b) returns ?lt_ab.
have inv0 : dm_inv elements f 0 [::] (DmState (np_zeros k k) [::]).
  split=> //=; first exact: square_zeros.
  by move=> a b; rw ent_zeros ?in_nil.
have [|[D calls] -> [/= sq _ _ cells]] :=
    dm_outer_inv (rows := range 0 k) inv0.
  by apply/allP=> i; rw /range mem_iota subn0 add0n.
exists D; split=> // a b.
by rw cells -/(upper_pairs k) !mem_upper_pairs.
Qed.

(** The distance between two unitary matrices is defined and is not
    negative. *)
Lemma bi_invariant_distance_ge0 n (U V : 'M[C]_n) :
  la_eig_spec -> U \is unitarymx -> V \is unitarymx ->
  exists2 d, Core.bi_invariant_distance U V = Ok d & 0 <= d.
Proof.
move=> eig_spec unitaryU unitaryV.
pose X := U ^t* *m V; pose P := spectralmx X; pose sp := spectral_diag X.
have unitaryX : X \is unitarymx by rw mul_unitarymx ?trmxC_unitary.
have unitaryP : P \is unitarymx := spectral_unitarymx X.
have eqX : X = P ^t* *m diag_mx sp *m P := unitary_spectral unitaryX.
exists (Core.angle_norm sp); first exact: distance_unitary eqX.
by rw sqrtC_ge0; apply: sumr_ge0 => i _; rw exprn_ge0.
Qed.

(** The values of the default metric. *)
Let dist (U V : 'M[C]_m) : C :=
  if Core.bi_invariant_distance U V is Ok d then d else 0.

Lemma dist_unitary (elements : seq 'M[C]_m) (i j : nat) :
  la_eig_spec -> all (fun U => U \is unitarymx) elements ->
  (i < j < size elements)%N ->
  exists2 d, Core.bi_invariant_distance (nth 0 elements i)
               (nth 0 elements j) = Ok d
           & 0 <= d /\ dist (nth 0 elements i) (nth 0 elements j) = d.
Proof.
move=> eig_spec /allP unitary_els /andP [lt_ij lt_jk].
have [||d eq_d d_ge0] := bi_invariant_distance_ge0 (U := nth 0 elements i)
    (V := nth 0 elements j) eig_spec.
- by apply/unitary_els/mem_nth/(ltn_trans lt_ij).
- exact/unitary_els/mem_nth.
by exists d; rw // /dist eq_d.
Qed.

Lemma dm_unitary (elements : seq 'M[C]_m) :
  la_eig_spec -> all (fun U => U \is unitarymx) elements ->
  let k := size elements in
  let e := nth 0 elements in
  exists D : seq (seq C),
    [/\ compute_distance_matrix elements None = Ok D,
        square k D
      & forall a b, ent D a b =
          if (a < b < k)%N then dist (e a) (e b)
          else if (b < a < k)%N then dist (e b) (e a) else 0].
Proof.
move=> eig_spec unitary_els k e.
apply: (@dm_returns elements Core.bi_invariant_distance dist).
by move=> i j /(dist_unitary eig_spec unitary_els) [d -> [_ ->]].
Qed.

(** X18.  For a list of [k] unitary matrices and the default metric, when
    [la.eig] meets its contract at the unitary matrices,
    [compute_distance_matrix] raises nothing: it returns a [k] x [k] array
    with zeros on the diagonal, and at the cells [(i, j)] and [(j, i)], [i <
    j], the distance between the elements [i] and [j], which is not
    negative. *)
Theorem compute_distance_matrix_unitary (elements : seq 'M[C]_m) :
  la_eig_spec -> all (fun U => U \is unitarymx) elements ->
  let k := size elements in
  exists D : seq (seq C),
    [/\ compute_distance_matrix elements None = Ok D,
        size D = k /\ all (fun row => size row == k) D,
        forall i, (i < k)%N -> getitem2 D i i = Ok 0
      & forall i j, (i < j < k)%N ->
          exists d : C,
            [/\ Core.bi_invariant_distance (nth 0 elements i)
                  (nth 0 elements j) = Ok d,
                0 <= d, getitem2 D i j = Ok d & getitem2 D j i = Ok d]].
Proof.
move=> eig_spec unitary_els k.
have [D [eq_D sq cells]] := dm_unitary eig_spec unitary_els.
exists D; split=> //.
- by case/andP: sq => /eqP.
- by move=> i lt_i; rw (getitem2_ent sq) // cells ltnn.
move=> i j lt_ij.
have [d eq_d [d_ge0 eq_f]] := dist_unitary eig_spec unitary_els lt_ij.
case/andP: (lt_ij) => lt_i_j lt_jk.
have lt_ik : (i < k)%N := ltn_trans lt_i_j lt_jk.
exists d; split=> //; rw (getitem2_ent sq) // cells ?lt_ij ?eq_f //.
by rw ltnNge (ltnW lt_i_j).
Qed.

(** X19.  The isomap and the mds paths on unitary matrices: when [la.eig]
    meets its contract at the unitary matrices, the default metric raises
    nothing, so that [isomap_embedding] and [geodesic_embedding] raise only
    what the estimator raises; the estimator receives the array [D] of
    [compute_distance_matrix], with [n_neighbors] defaulting to 12 and
    [random_state] to 42, and [D] is what [isomap_embedding] hands back with
    [return_distance_matrix=True]. *)
Theorem isomap_embedding_unitary (elements : seq 'M[C]_m)
    (n_components n_neighbors : nat) (kwargs : seq (string * nat)) :
  la_eig_spec -> all (fun U => U \is unitarymx) elements ->
  exists D : seq (seq C),
    [/\ compute_distance_matrix elements None = Ok D,
        isomap_embedding elements n_components n_neighbors None true
          = (embedding <- external
                            (isomap_fit_transform n_neighbors n_components D) ;;
             Ok (embedding, Some D)),
        isomap_embedding elements n_components n_neighbors None false
          = (embedding <- external
                            (isomap_fit_transform n_neighbors n_components D) ;;
             Ok (embedding, None)),
        geodesic_embedding elements "isomap" n_components None kwargs
          = external (isomap_fit_transform
                        (dict_get kwargs "n_neighbors" 12%N) n_components D)
      & geodesic_embedding elements "mds" n_components None kwargs
          = external (mds_fit_transform n_components
                        (dict_get kwargs "random_state" 42%N) D)].
Proof.
move=> eig_spec unitary_els.
have [D [eq_D _ _]] := dm_unitary eig_spec unitary_els.
exists D; rw /geodesic_embedding /isomap_embedding eq_D /=; split=> //.
by case: (isomap_fit_transform _ _ _).
Qed.

End DistanceMatrixOutcome.

(** The theorem at three 1 x 1 matrices and a metric that raises when its
    first argument is the second of them: the pairs (0, 1) and (0, 2)
    return, the pair (1, 2) raises. *)
Lemma compute_distance_matrix_raises_witness :
  Geodesic.compute_distance_matrix (B := exact_backend)
    [:: (0 : 'M[algC]_1); 1%:M; 2%:M]
    (Some (fun U V => if U == 1%:M then Raise ZeroDivisionError else Ok 0))
  = Raise ZeroDivisionError.
Proof.
apply: (@compute_distance_matrix_raises _ exact_backend _ _ _ 1 2) => //=.
  by rw eqxx.
have neq01 : ((0 : 'M[algC]_1) == 1%:M) = false.
  by apply/eqP=> /matrixP /(_ 0 0) /eqP; rw !mxE eqxx eq_sym oner_eq0.
by case=> [|[|a]] [|[|b]] //= _ _; exists 0; rw neq01.
Defined.

(** The two theorems at the identity and [i] times the identity, in
    dimension 2, with the routines over the algebraic numbers. *)
Lemma compute_distance_matrix_unitary_witness :
  exists D : seq (seq algC),
    [/\ Geodesic.compute_distance_matrix (B := exact_backend)
          [:: (1%:M : 'M_2); 'i%:M] None = Ok D,
        size D = 2%N /\ all (fun row => size row == 2%N) D,
        forall i, (i < 2)%N -> getitem2 D i i = Ok 0
      & forall i j, (i < j < 2)%N ->
          exists d : algC,
            [/\ Core.bi_invariant_distance (B := exact_backend)
                  (nth 0 [:: (1%:M : 'M_2); 'i%:M] i)
                  (nth 0 [:: (1%:M : 'M_2); 'i%:M] j) = Ok d,
                0 <= d, getitem2 D i j = Ok d & getitem2 D j i = Ok d]].
Proof.
apply: (compute_distance_matrix_unitary (B := exact_backend)
          (elements := [:: (1%:M : 'M_2); 'i%:M])).
  exact: exact_la_eig_spec.
by rw /= unitarymx1 unitarymx_i.
Defined.

Lemma isomap_embedding_unitary_witness :
  exists D : seq (seq algC),
    [/\ Geodesic.compute_distance_matrix (B := exact_backend)
          [:: (1%:M : 'M_2); 'i%:M] None = Ok D,
        Geodesic.isomap_embedding (B := exact_backend)
            [:: (1%:M : 'M_2); 'i%:M] 2 12 None true
          = (embedding <- external
               (isomap_fit_transform (Backend := exact_backend) 12 2 D) ;;
             Ok (embedding, Some D)),
        Geodesic.isomap_embedding (B := exact_backend)
            [:: (1%:M : 'M_2); 'i%:M] 2 12 None false
          = (embedding <- external
               (isomap_fit_transform (Backend := exact_backend) 12 2 D) ;;
             Ok (embedding, None)),
        Geodesic.geodesic_embedding (B := exact_backend)
            [:: (1%:M : 'M_2); 'i%:M] "isomap" 2 None [::]
          = external (isomap_fit_transform (Backend := exact_backend)
                        (dict_get [::] "n_neighbors" 12%N) 2 D)
      & Geodesic.geodesic_embedding (B := exact_backend)
            [:: (1%:M : 'M_2); 'i%:M] "mds" 2 None [::]
          = external (mds_fit_transform (Backend := exact_backend) 2
                        (dict_get [::] "random_state" 42%N) D)].
Proof.
apply: (isomap_embedding_unitary (B := exact_backend)
          (elements := [:: (1%:M : 'M_2); 'i%:M]) 2 12 [::]).
  exact: exact_la_eig_spec.
by rw /= unitarymx1 unitarymx_i.
Defined.

(** ** The linear path (geodesic.geodesic_embedding with the method "pca") *)

Section Pca.

Context {C : numClosedFieldType} {B : Backend C} {m : nat}.

Import Geodesic.


End Pca.

(** ** More on the quality metrics (geodesic.analyze_embedding_quality) *)

Section QualityEdges.

Context {C : numClosedFieldType} {B : Backend C}.

Import Geodesic.

Lemma uniq_triu_indices n : uniq (triu_indices n).
Proof.
rw /triu_indices filter_uniq // allpairs_uniq ?enum_uniq //.
by move=> [i j] [i' j'] _ _ [-> ->].
Qed.

(** Fewer than three points have at most one pair. *)
Lemma size_triu_indices_small n : (n < 3)%N -> (size (triu_indices n) < 2)%N.
Proof.
move=> lt_n3; have uniq_t := uniq_triu_indices n.
have eq_all (p q : 'I_n * 'I_n) :
    p \in triu_indices n -> q \in triu_indices n -> p = q.
  have pair0 (r : 'I_n * 'I_n) : r \in triu_indices n ->
      (r.1 : nat) = 0%N /\ (r.2 : nat) = 1%N.
    case: r => i j; rw mem_triu_indices /= => lt_ij.
    have := ltn_ord j; have := leq_trans (ltn_ord j) lt_n3.
    by case: (i : nat) (j : nat) lt_ij => [|a] [|[|[|b]]].
  case: p q => [i j] [i' j'] /pair0 [/= eq_i eq_j] /pair0 [/= eq_i' eq_j'].
  by congr (_, _); apply: val_inj; rw /= ?eq_i ?eq_j.
case: (triu_indices n) uniq_t eq_all => [|p [|q s]] //= /andP [p_notin _] eq_all.
by move: p_notin; rw (eq_all p q) ?mem_head // !in_cons eqxx ?orbT.
Qed.

(** X21.  With fewer than three points there are fewer than two distances to
    correlate: when [pearsonr] raises on inputs shorter than 2, the analyzer
    raises what [pearsonr] raises, whatever the embedding and the distance
    matrix. *)
Theorem analyze_embedding_quality_few_points n d
    (E : 'M[C]_(n, d)) (D : 'M[C]_n) :
  pearsonr_short -> (n < 3)%N ->
  exists msg, analyze_embedding_quality E D = Raise (LibraryError msg).
Proof.
move=> short lt_n3; rw /analyze_embedding_quality.
set orig := [seq D p.1 p.2 | p <- _]; set embed := [seq _ | p <- _].
have [|msg ->] := short orig embed; last by exists msg.
by rw size_map size_triu_indices_small.
Qed.

(** X22.  The analyzer reads the distance matrix above the diagonal only:
    two matrices that agree there give the same result. *)
Theorem analyze_embedding_quality_upper n d
    (E : 'M[C]_(n, d)) (D D' : 'M[C]_n) :
  (forall i j : 'I_n, (i < j)%N -> D i j = D' i j) ->
  analyze_embedding_quality E D = analyze_embedding_quality E D'.
Proof.
move=> eq_upper; rw /analyze_embedding_quality.
have -> // : [seq D p.1 p.2 | p <- triu_indices n]
           = [seq D' p.1 p.2 | p <- triu_indices n].
apply/eq_in_map=> -[i j]; rw mem_triu_indices /= => lt_ij.
exact: eq_upper.
Qed.

(** X23.  The analyzer reads the embedding through the distances between its
    rows: adding the same vector to every row changes nothing. *)
Theorem analyze_embedding_quality_translation n d
    (E : 'M[C]_(n, d)) (t : 'rV[C]_d) (D : 'M[C]_n) :
  analyze_embedding_quality (\matrix_(i, k) (E i k + t 0 k)) D
    = analyze_embedding_quality E D.
Proof.
rw /analyze_embedding_quality.
have -> // : pdist_square (\matrix_(i, k) (E i k + t 0 k)) = pdist_square E.
apply/matrixP=> i j; rw !mxE; congr sqrtC; apply: eq_bigr => k _.
by rw !mxE opprD addrACA subrr addr0.
Qed.

End QualityEdges.

Section Distortion.

Context {C : numClosedFieldType} {B : Backend C}.

Import Geodesic.

(** The maximum of real numbers is at least each of them. *)
Lemma foldl_max_ge (x : C) (s : seq C) :
  all (fun a => a \is Num.real) (x :: s) ->
  forall y, y \in x :: s -> y <= foldl Num.max x s.
Proof.
elim: s x => [|z s IH] x /=.
  by move=> _ y; rw inE => /eqP ->.
case/and3P=> real_x real_z real_s y.
have real_max : Num.max x z \is Num.real by rw max_real.
have le_max : x <= Num.max x z /\ z <= Num.max x z.
  rw maxElt; case: ifP => [/ltW le_xz|/negbT]; first by rw le_xz lexx.
  by rw -real_leNgt // => le_zx; rw lexx le_zx.
have le_fold := IH (Num.max x z); rw /= real_max real_s in le_fold.
rw !in_cons => /or3P [/eqP ->|/eqP ->|y_in].
- by apply: le_trans (le_fold isT _ (mem_head _ _)); case: le_max.
- by apply: le_trans (le_fold isT _ (mem_head _ _)); case: le_max.
by apply: le_fold => //; rw in_cons y_in orbT.
Qed.

(** X24.  Whenever the analyzer returns, the mean distortion is finite, it
    is not negative and does not exceed the maximal distortion, and the
    maximal distortion is the distortion of one of the pairs [(i, j)], [i <
    j]. *)
Theorem analyze_embedding_quality_distortion n d
    (E : 'M[C]_(n, d)) (D : 'M[C]_n) :
  match analyze_embedding_quality E D with
  | Ok q =>
      exists a : C,
        [/\ mean_distortion q = Finite a,
            0 <= a <= max_distortion q
          & exists i j : 'I_n,
              (i < j)%N
              /\ max_distortion q = `|D i j - pdist_square E i j|]
  | Raise _ => True
  end.
Proof.
rw /analyze_embedding_quality.
set orig := [seq D p.1 p.2 | p <- _]; set embed := [seq _ | p <- _].
case: (pearsonr _ _) => [pr|msg] //=; case: (spearmanr _ _) => [sr|msg] //=.
set diff := [seq p.1 - p.2 | p <- zip orig embed].
have def_diff : diff
    = [seq D p.1 p.2 - pdist_square E p.1 p.2 | p <- triu_indices n].
  by rw /diff /orig /embed zip_map -map_comp.
case def_l : [seq `|x| | x <- diff] => [|x l] //=.
have real_l : all (fun a => a \is Num.real) (x :: l).
  by rw -def_l; apply/allP=> _ /mapP [y _ ->]; rw normr_real.
have ge0_l : all (fun a => 0 <= a) (x :: l).
  by rw -def_l; apply/allP=> _ /mapP [y _ ->].
have le_max := foldl_max_ge real_l; set M := foldl Num.max x l in le_max *.
have size_neq0 : (size (x :: l))%:R != 0 :> C by rw pnatr_eq0.
exists ((\sum_(y <- x :: l) y) / (size (x :: l))%:R); split.
- by rw /np_mean_float /np_true_divide (negbTE size_neq0).
- apply/andP; split.
    rw divr_ge0 ?ler0n // big_seq sumr_ge0 // => y y_in.
    exact: (allP ge0_l).
  rw ler_pdivrMr ?ltr0n //.
  have -> : M * (size (x :: l))%:R = \sum_(y <- x :: l) M.
    by rw big_const_seq count_predT iter_addr_0 mulr_natr.
  by rw big_seq [leRHS]big_seq; apply: ler_sum => y /le_max.
have : M \in x :: l by apply: foldl_max_in.
rw -def_l def_diff -map_comp => /mapP [[i j]]; rw mem_triu_indices /= => lt_ij ->.
by exists i, j.
Qed.

(** X25.  For a real embedding and a real distance matrix, whenever the
    analyzer returns: the normalized stress is 0 exactly when the distances
    of the embedding are the entries of the matrix above the diagonal and
    these are not all zero. *)
Theorem analyze_embedding_quality_stress_zero n d
    (E : 'M[C]_(n, d)) (D : 'M[C]_n) :
  E \is a realmx -> D \is a realmx ->
  match analyze_embedding_quality E D with
  | Ok q =>
      normalized_stress q = Finite 0
      <-> perfect_embedding E D
          /\ exists i j : 'I_n, (i < j)%N /\ D i j != 0
  | Raise _ => True
  end.
Proof.
move=> realE realD; rw /analyze_embedding_quality.
set orig := [seq D p.1 p.2 | p <- _]; set embed := [seq _ | p <- _].
have real_orig : all (fun a => a \is Num.real) orig.
  by apply/allP=> _ /mapP [p _ ->]; apply: (mxOverP realD).
have real_embed : all (fun a => a \is Num.real) embed.
  by apply/allP=> _ /mapP [p _ ->]; apply/ger0_real/pdist_square_ge0.
case: (pearsonr _ _) => [pr|msg] //=; case: (spearmanr _ _) => [sr|msg] //=.
set diff := [seq p.1 - p.2 | p <- zip orig embed].
have def_diff : diff
    = [seq D p.1 p.2 - pdist_square E p.1 p.2 | p <- triu_indices n].
  by rw /diff /orig /embed zip_map -map_comp.
have real_diff : all (fun a => a \is Num.real) diff.
  rw def_diff; apply/allP=> _ /mapP [p _ ->].
  by rw rpredB ?(mxOverP realD) // ger0_real // pdist_square_ge0.
case: (np_max _) => [max_d|e] //=.
have orig0 : (\sum_(x <- orig) x ^+ 2 == 0)
             = ~~ [exists i : 'I_n, exists j : 'I_n, (i < j)%N && (D i j != 0)].
  apply/eqP/idP=> [/(sumsq_eq0 real_orig) /allP all0|no_pair].
    apply/negP=> /existsP [i /existsP [j /andP [lt_ij]]]; apply/negP.
    rw negbK; apply: all0; apply/mapP; exists (i, j) => //.
    by rw mem_triu_indices.
  rw big_map big1_seq // => -[i j]; rw mem_triu_indices /= => lt_ij.
  move: no_pair; rw negb_exists => /forallP /(_ i).
  rw negb_exists => /forallP /(_ j); rw lt_ij negbK /= => /eqP ->.
  by rw expr0n.
have diff0 : (\sum_(x <- diff) x ^+ 2 == 0)
             = [forall i : 'I_n, forall j : 'I_n,
                  (i < j)%N ==> (D i j == pdist_square E i j)].
  apply/eqP/idP=> [/(sumsq_eq0 real_diff) /allP all0|perfect].
    apply/forallP=> i; apply/forallP=> j; apply/implyP=> lt_ij.
    rw -subr_eq0; apply: all0; rw def_diff; apply/mapP; exists (i, j) => //.
    by rw mem_triu_indices.
  rw def_diff big_map big1_seq // => -[i j]; rw mem_triu_indices /= => lt_ij.
  move/forallP/(_ i)/forallP/(_ j): perfect; rw lt_ij /= => /eqP ->.
  by rw subrr expr0n.
have perfectP : reflect (perfect_embedding E D)
    [forall i : 'I_n, forall j : 'I_n,
       (i < j)%N ==> (D i j == pdist_square E i j)].
  apply: (iffP idP) => [perfect i j lt_ij|perfect].
    by move/forallP/(_ i)/forallP/(_ j): perfect; rw lt_ij /= => /eqP.
  apply/forallP=> i; apply/forallP=> j; apply/implyP=> lt_ij.
  by rw perfect.
rw /np_true_divide orig0; split.
  case: ifP => // /negbFE /existsP [i /existsP [j /andP [lt_ij Dij_neq0]]].
  rw /=; case: ifP => // _ [] /eqP; rw sqrtC_eq0 mulf_eq0 invr_eq0.
  have /negbTE -> : \sum_(x <- orig) x ^+ 2 != 0.
    by rw orig0 negbK; apply/existsP; exists i; apply/existsP; exists j;
       rw lt_ij.
  by rw orbF diff0 => /perfectP perfect; split=> //; exists i, j.
case=> /perfectP perfect [i [j [lt_ij Dij_neq0]]].
have -> : [exists i : 'I_n, exists j : 'I_n, (i < j)%N && (D i j != 0)].
  by apply/existsP; exists i; apply/existsP; exists j; rw lt_ij.
by move: perfect; rw -diff0 => /eqP -> /=; rw mul0r lexx sqrtC0.
Qed.

End Distortion.

Lemma exact_pearsonr_short : pearsonr_short (B := exact_backend).
Proof.
by move=> x y short; rw /= /exact_pearsonr short /=; eexists.
Qed.

(** The theorem at two coincident points. *)
Lemma analyze_embedding_quality_few_points_witness :
  exists msg,
    Geodesic.analyze_embedding_quality (B := exact_backend)
      (0 : 'M[algC]_(2, 1)) (0 : 'M[algC]_2) = Raise (LibraryError msg).
Proof.
exact: (analyze_embedding_quality_few_points (B := exact_backend)
          (n := 2) 0 0 exact_pearsonr_short (ltnSn 2)).
Defined.

(** The theorem at three points on a line with their own distances, and
    with these distances above the diagonal and 7 elsewhere. *)
Lemma analyze_embedding_quality_upper_witness :
  Geodesic.analyze_embedding_quality (B := exact_backend) three_points
    (Geodesic.pdist_square three_points)
  = Geodesic.analyze_embedding_quality (B := exact_backend) three_points
      (\matrix_(i, j) if (i < j)%N
                      then Geodesic.pdist_square three_points i j else 7).
Proof.
apply: analyze_embedding_quality_upper => i j lt_ij.
by rw [RHS]mxE lt_ij.
Defined.

(** The theorem at three points on a line with their own distances. *)
Lemma analyze_embedding_quality_stress_zero_witness :
  match Geodesic.analyze_embedding_quality (B := exact_backend) three_points
          (Geodesic.pdist_square three_points) with
  | Ok q =>
      Geodesic.normalized_stress q = Finite 0
      <-> Geodesic.perfect_embedding three_points
            (Geodesic.pdist_square three_points)
          /\ exists i j : 'I_3,
               (i < j)%N /\ Geodesic.pdist_square three_points i j != 0
  | Raise _ => True
  end.
Proof.
have realE : three_points \is a realmx.
  by apply/mxOverP=> i k; rw mxE realn.
apply: (analyze_embedding_quality_stress_zero (B := exact_backend)) => //.
by apply/mxOverP=> i j; apply/ger0_real/pdist_square_ge0.
Defined.
